(** * AWS IoT Device Client: feature lifecycle and layered configuration

    A shallow embedding of [source/main.cpp] (the feature registry, the
    notifier callbacks, [shutdown()] and [main()]) and of the configuration
    resolver exercised by [test/config/TestConfig.cpp].

    The C++ globals of [main.cpp] become a record that is threaded through
    a small monad of processes; [exit()] and [abort()] end a computation
    with a termination status.  Calls that leave [main.cpp] (the logger,
    [Feature::stop()], the resource manager) are recorded, in order, in a
    trace of effects. *)

From Stdlib Require Import ZArith String Ascii Bool Lia.
From stdpp Require Import base list strings.

Local Open Scope Z_scope.
Local Open Scope nat_scope.
Local Open Scope list_scope.

(** ** The process monad *)

Module Main.

(** A [Feature*] is compared by address only ([features.at(i) == feature]);
    it is modelled by that address. *)
Abbreviation Feature := nat (only parsing).

Inductive LogLevel := DEBUG | INFO | WARN | ERROR.

(** The variadic arguments of the [LOGM_*] macros. *)
Inductive LogArg :=
| NameOf (f : Feature)            (* feature->get_name().c_str() *)
| Text (s : string)               (* msg.c_str() *)
| Number (z : Z).                 (* %d *)

(** What the process does to the world outside [main.cpp]. *)
Inductive Effect :=
| Log (lvl : LogLevel) (fmt : string) (args : list LogArg)
                                  (* LOG*_<lvl>(TAG, fmt, args...); TAG is "Main.cpp" *)
| FeatureInit (f : Feature)       (* feature->init(resourceManager, listener, config) *)
| FeatureStart (f : Feature)      (* feature->start() *)
| FeatureStop (f : Feature)       (* feature->stop() *)
| Disconnect                      (* resourceManager->disconnect() *)
| LoggerShutdown                  (* LoggerFactory::getLoggerInstance()->shutdown() *)
| EnterShutdown.                  (* marker: control has entered shutdown() *)

(** The file-scope variables of [main.cpp], plus the trace. *)
Record Globals := mkGlobals {
  features : list Feature;        (* vector<Feature*> features *)
  attemptingShutdown : bool;      (* bool attemptingShutdown *)
  trace : list Effect
}.

(** Zero-initialised globals at program start. *)
Definition initial : Globals := mkGlobals [] false [].

Inductive Termination :=
| Exit (status : Z)               (* exit(status), or return status from main *)
| Abort.                          (* abort() *)

Inductive Outcome (A : Type) :=
| Returns (a : A) (g : Globals)
| Terminated (t : Termination) (g : Globals).
Arguments Returns {A} a g.
Arguments Terminated {A} t g.

Definition Proc (A : Type) := Globals -> Outcome A.

Definition ret {A} (a : A) : Proc A := fun g => Returns a g.

Definition bind {A B} (m : Proc A) (k : A -> Proc B) : Proc B :=
  fun g => match m g with
           | Returns a g' => k a g'
           | Terminated t g' => Terminated t g'
           end.

#[global] Instance Proc_ret : MRet Proc := @ret.
#[global] Instance Proc_bind : MBind Proc := fun A B k m => bind m k.

Definition get {A} (proj : Globals -> A) : Proc A := fun g => Returns (proj g) g.

Definition set_features (fs : list Feature) : Proc unit :=
  fun g => Returns tt (mkGlobals fs (attemptingShutdown g) (trace g)).

Definition set_attemptingShutdown (b : bool) : Proc unit :=
  fun g => Returns tt (mkGlobals (features g) b (trace g)).

Definition emit (e : Effect) : Proc unit :=
  fun g => Returns tt (mkGlobals (features g) (attemptingShutdown g) (trace g ++ [e])).

Definition terminate {A} (t : Termination) : Proc A := fun g => Terminated t g.

Definition log (lvl : LogLevel) (fmt : string) (args : list LogArg) : Proc unit :=
  emit (Log lvl fmt args).

(** [for (auto & x : l) body(x);] *)
Fixpoint for_each {A} (l : list A) (body : A -> Proc unit) : Proc unit :=
  match l with
  | [] => ret tt
  | x :: l' => body x ;; for_each l' body
  end.

Definition final {A} (o : Outcome A) : Globals :=
  match o with Returns _ g => g | Terminated _ g => g end.

Definition termination {A} (o : Outcome A) : option Termination :=
  match o with Returns _ _ => None | Terminated t _ => Some t end.

(** ** [int] and [size_t] *)

(** [const int size = features.size();] converts a [size_t] to a 32-bit
    [int]: the value is reduced modulo 2^32 into the signed range. *)
Definition INT_MAX : Z := 2147483647.

Definition int_of_size_t (n : Z) : Z :=
  let m := (n mod 4294967296)%Z in
  if (m <=? INT_MAX)%Z then m else (m - 4294967296)%Z.

(** ** [shutdown()] *)

(** The body of the loop over [featuresCopy]. *)
Definition stop_feature (feature : Feature) : Proc unit :=
  log DEBUG "Attempting shutdown of %s" [NameOf feature];;
  emit (FeatureStop feature).

Definition shutdown : Proc unit :=
  emit EnterShutdown;;
  flag ← get attemptingShutdown;
  if negb flag then
    set_attemptingShutdown true;;
    (* featuresReadWriteLock.lock() *)
    featuresCopy ← get features;
    (* featuresReadWriteLock.unlock() *)
    for_each featuresCopy stop_feature;;
    emit LoggerShutdown
  else
    emit LoggerShutdown;;
    terminate (Exit 0).

(** ** [handle_feature_stopped()] *)

(** The erase loop
    [for (int i = 0; (unsigned)i < features.size(); i++)
       if (features.at(i) == feature) features.erase(features.begin() + i);]
    as a loop on the index and the vector.  After an erase the index still
    advances, so the element that moved into slot [i] is not examined.
    [features.at(i)] throws when out of range; the loop condition excludes
    that, and the model leaves the vector alone there.  The [int] index is
    followed as a natural number, which is what it is while the vector has
    no more than [INT_MAX] elements. *)
Fixpoint erase_loop (fuel : nat) (feature : Feature) (i : nat)
                    (features : list Feature) : list Feature :=
  match fuel with
  | O => features
  | S fuel' =>
      if i <? length features then
        let features' :=
          match features !! i with
          | Some x => if Nat.eqb x feature then delete i features else features
          | None => features
          end in
        erase_loop fuel' feature (S i) features'
      else features
  end.

(** The index grows and the vector never does, so [features.size()]
    iterations are enough (see [erase_loop_fuel]). *)
Definition erase_feature (feature : Feature) (features : list Feature) : list Feature :=
  erase_loop (length features) feature 0 features.

(** The part of [handle_feature_stopped] that runs between
    [featuresReadWriteLock.lock()] and [featuresReadWriteLock.unlock()];
    it yields the local [size]. *)
Definition stopped_locked (feature : Feature) : Proc Z :=
  fs ← get features;
  set_features (erase_feature feature fs);;
  fs' ← get features;
  ret (int_of_size_t (Z.of_nat (length fs'))).

(** The part after the unlock. *)
Definition stopped_unlocked (size : Z) : Proc unit :=
  if (0 =? size)%Z then
    log INFO "All features have stopped" [];;
    shutdown
  else ret tt.

Definition handle_feature_stopped (feature : Feature) : Proc unit :=
  size ← stopped_locked feature;
  stopped_unlocked size.

(** ** [DefaultClientBaseNotifier] *)

Inductive ClientBaseEventNotification :=
| FEATURE_STARTED
| FEATURE_STOPPED
| OTHER_EVENT (n : Z).            (* any other value of the enum *)

Inductive ClientBaseErrorNotification :=
| SUBSCRIPTION_REJECTED
| MESSAGE_RECEIVED_AFTER_SHUTDOWN
| OTHER_ERROR (n : Z).

(** [NDEBUG] is defined in a release build and not in a debug build. *)
Inductive Build := DebugBuild | ReleaseBuild.

Definition onEvent (feature : Feature) (notification : ClientBaseEventNotification)
  : Proc unit :=
  match notification with
  | FEATURE_STARTED =>
      log INFO "Client base has been notified that %s has started" [NameOf feature]
  | FEATURE_STOPPED =>
      log INFO "%s has stopped" [NameOf feature];;
      handle_feature_stopped feature
  | OTHER_EVENT _ =>
      log WARN "DefaultClientBaseNotifier hit default switch case for feature: %s"
          [NameOf feature]
  end.

(** The [default:] label of [onError], also reached by falling through from
    [MESSAGE_RECEIVED_AFTER_SHUTDOWN], whose case has no [break]. *)
Definition onError_default (feature : Feature) : Proc unit :=
  log ERROR "DefaultClientBaseNotifier hit default ERROR switch case for feature: "
      [NameOf feature].

Definition onError (build : Build) (feature : Feature)
    (error : ClientBaseErrorNotification) (msg : string) : Proc unit :=
  match error with
  | SUBSCRIPTION_REJECTED =>
      log ERROR "Subscription rejected: %s" [Text msg]
  | MESSAGE_RECEIVED_AFTER_SHUTDOWN =>
      log ERROR "Received message after feature shutdown: %s" [Text msg];;
      onError_default feature
  | OTHER_ERROR _ =>
      onError_default feature
  end;;
  match build with
  | ReleaseBuild => ret tt        (* #ifdef NDEBUG: nothing *)
  | DebugBuild =>
      log ERROR "*** DC FATAL ERROR: Aborting program due to unrecoverable feature error! ***" [];;
      emit LoggerShutdown;;
      terminate Abort
  end.

(** ** [main()] *)

(** What [main] learns from its collaborators, whose code is outside
    [main.cpp]. *)
Record Startup := mkStartup {
  parse_cli_ok : bool;            (* Config::ParseCliArgs(argc, argv, cliArgs) *)
  config_init_ok : bool;          (* config.init(cliArgs) *)
  initialize_ok : bool;           (* resourceManager->initialize(config.config) *)
  jobs_enabled : bool;            (* config.config.jobs.enabled *)
  tunneling_enabled : bool;       (* config.config.tunneling.enabled *)
  jobs : Feature;                 (* jobs.get() *)
  tunneling : Feature             (* tunneling.get() *)
}.

Definition SIGINT : Z := 2.

Definition push_back (f : Feature) : Proc unit :=
  fs ← get features;
  set_features (fs ++ [f]).

(** [main] up to the signal loop.  [return 0] from [main] ends the process
    with status 0.  [config.init] is only called when parsing succeeded. *)
Definition main_startup (s : Startup) : Proc unit :=
  if negb (parse_cli_ok s) || negb (config_init_ok s) then
    emit LoggerShutdown;;
    terminate (Exit 0)
  else if negb (initialize_ok s) then
    log ERROR "*** AWS IOT DEVICE CLIENT FATAL ERROR: Failed to initialize the MQTT Client. Please verify your AWS IoT credentials and/or configuration. ***" [];;
    emit LoggerShutdown;;
    terminate Abort
  else
    (* featuresReadWriteLock.lock() *)
    (if jobs_enabled s then
       emit (FeatureInit (jobs s));;
       push_back (jobs s)
     else ret tt);;
    (if tunneling_enabled s then
       emit (FeatureInit (tunneling s));;
       push_back (tunneling s)
     else ret tt);;
    fs ← get features;
    for_each fs (fun feature => emit (FeatureStart feature))
    (* featuresReadWriteLock.unlock() *).

(** One turn of [while (true) { sigwait(...); ... }]. *)
Definition on_signal (received_signal : Z) : Proc unit :=
  log INFO "Received signal: (%d)" [Number received_signal];;
  if (SIGINT =? received_signal)%Z then
    emit Disconnect;;
    shutdown
  else ret tt.

(** [main] run against the values [sigwait] returns, in order.  When they
    are used up the process is still blocked in [sigwait].  The set waited
    on holds [SIGINT] alone ([sigaddset(&sigset, SIGINT)], the only signal
    blocked), so the values [sigwait] returns in a run of the program are
    all [SIGINT]: the [else] side of the test in [on_signal] is kept as it is
    written, but a list that holds another number describes no run, and what
    other signals do to the process is not part of this model. *)
Definition main (s : Startup) (signals : list Z) : Proc unit :=
  main_startup s;;
  for_each signals on_signal.

(** ** Concurrent deliveries of [FEATURE_STOPPED] *)

(** Features report from threads of their own.  A thread that runs
    [onEvent(feature, FEATURE_STOPPED)] goes through three steps: the log
    line of [onEvent]; the section of [handle_feature_stopped] between
    [lock()] and [unlock()], which the mutex makes one step with respect
    to the other threads; and the test of the local [size], with the call
    of [shutdown()] it may lead to. *)
Inductive Pc :=
| AtOnEvent (feature : Feature)   (* entered onEvent *)
| AtLock (feature : Feature)      (* about to take featuresReadWriteLock *)
| AtCheck (size : Z)              (* lock released, holding [size] *)
| Returned.

Definition thread_step (pc : Pc) : Proc Pc :=
  match pc with
  | AtOnEvent feature =>
      log INFO "%s has stopped" [NameOf feature];;
      mret (AtLock feature)
  | AtLock feature =>
      size ← stopped_locked feature;
      mret (AtCheck size)
  | AtCheck size =>
      stopped_unlocked size;;
      mret Returned
  | Returned => mret Returned
  end.

Record System := mkSystem {
  globals : Globals;
  ended : option Termination;     (* set by exit() or abort(): all threads die *)
  threads : list Pc
}.

(** Thread [t] takes its next step. *)
Definition schedule_step (t : nat) (s : System) : System :=
  match ended s, threads s !! t with
  | None, Some pc =>
      match thread_step pc (globals s) with
      | Returns pc' g' => mkSystem g' None (<[t := pc']> (threads s))
      | Terminated k g' => mkSystem g' (Some k) (threads s)
      end
  | _, _ => s
  end.

(** A schedule names, step by step, the thread that runs next. *)
Fixpoint run (schedule : list nat) (s : System) : System :=
  match schedule with
  | [] => s
  | t :: schedule' => run schedule' (schedule_step t s)
  end.

(** Every delivery has returned, or the process is gone. *)
Definition finished (s : System) : Prop :=
  ended s <> None \/ Forall (fun pc => pc = Returned) (threads s).

(** The handles whose delivery has not yet been through the locked section. *)
Definition pending_of (pc : Pc) : list Feature :=
  match pc with
  | AtOnEvent feature | AtLock feature => [feature]
  | AtCheck _ | Returned => []
  end.

Definition pending (pcs : list Pc) : list Feature := flat_map pending_of pcs.

(** ** Reading a trace *)

(** The features whose [stop()] was called, in call order. *)
Fixpoint stops (t : list Effect) : list Feature :=
  match t with
  | [] => []
  | FeatureStop f :: t' => f :: stops t'
  | _ :: t' => stops t'
  end.

(** How many times control entered [shutdown()]. *)
Fixpoint shutdown_calls (t : list Effect) : nat :=
  match t with
  | [] => 0
  | EnterShutdown :: t' => S (shutdown_calls t')
  | _ :: t' => shutdown_calls t'
  end.

(** What the loop of [shutdown()] does for a snapshot of the registry. *)
Definition stop_effects (fs : list Feature) : list Effect :=
  flat_map (fun f => [Log DEBUG "Attempting shutdown of %s" [NameOf f]; FeatureStop f]) fs.

Definition with_trace (g : Globals) (t : list Effect) : Globals :=
  mkGlobals (features g) (attemptingShutdown g) t.

(** The direct description of the erase loop: scanning from the front,
    a match is dropped and the element behind it is kept unexamined. *)
Fixpoint erase_scan (feature : Feature) (l : list Feature) : list Feature :=
  match l with
  | [] => []
  | x :: t =>
      if Nat.eqb x feature then
        match t with
        | [] => []
        | y :: t' => y :: erase_scan feature t'
        end
      else x :: erase_scan feature t
  end.

(** Threads that hold a [size] of zero and have not acted on it yet. *)
Definition zero_of (pc : Pc) : nat :=
  match pc with
  | AtCheck size => if (0 =? size)%Z then 1 else 0
  | _ => 0
  end.

Fixpoint zeros (pcs : list Pc) : nat :=
  match pcs with
  | [] => 0
  | pc :: pcs' => zero_of pc + zeros pcs'
  end.

(** The steps a thread still has to take. *)
Definition remaining (pc : Pc) : nat :=
  match pc with
  | AtOnEvent _ => 3
  | AtLock _ => 2
  | AtCheck _ => 1
  | Returned => 0
  end.

Fixpoint total_remaining (pcs : list Pc) : nat :=
  match pcs with
  | [] => 0
  | pc :: pcs' => remaining pc + total_remaining pcs'
  end.

(** What holds of the system at every moment of every schedule; [calls0]
    is the number of entries into [shutdown()] before the deliveries. *)
Record Inv (calls0 : nat) (s : System) : Prop := mkInv {
  inv_nodup : NoDup (pending (threads s));
  inv_registry : features (globals s) ≡ₚ pending (threads s);
  inv_bound : (Z.of_nat (length (features (globals s))) <= INT_MAX)%Z;
  inv_mono : calls0 <= shutdown_calls (trace (globals s));
  inv_count :
    match ended s with
    | None =>
        zeros (threads s) + shutdown_calls (trace (globals s)) =
        calls0 + match pending (threads s) with [] => 1 | _ :: _ => 0 end
    | Some _ => shutdown_calls (trace (globals s)) = S calls0
    end
}.

(** ** Deliveries one after the other *)

Definition stopped_log (feature : Feature) : Effect :=
  Log INFO "%s has stopped" [NameOf feature].

(** [onEvent(f, FEATURE_STOPPED)] for each handle of [order], in turn. *)
Definition deliver_stopped (order : list Feature) : Proc unit :=
  for_each order (fun feature => onEvent feature FEATURE_STOPPED).

(** ** Statements and sample states *)

(** The specification's reading of a rejected subscription: it is logged
    and nothing else happens, whatever the build. *)
Definition subscription_rejected_nonfatal
    (build : Build) (feature : Feature) (msg : string) (g : Globals) : Prop :=
  onError build feature SUBSCRIPTION_REJECTED msg g =
  Returns tt (with_trace g (trace g ++ [Log ERROR "Subscription rejected: %s" [Text msg]])).

(** A running process with two registered features. *)
Definition two_registered : Globals := mkGlobals [4; 8] false [].

(** ** Calls one after the other *)

(** The handle sits at two consecutive positions of the vector. *)
Definition adjacent_copies (feature : Feature) (l : list Feature) : Prop :=
  exists i, l !! i = Some feature /\ l !! S i = Some feature.

(** What reaches the code of [main.cpp] once [main] sits in its loop: a
    notification through the [DefaultClientBaseNotifier], or a signal out
    of [sigwait]. *)
Inductive Call :=
| EventCall (feature : Feature) (notification : ClientBaseEventNotification)
| ErrorCall (feature : Feature) (error : ClientBaseErrorNotification) (msg : string)
| SignalCall (received_signal : Z).

Definition perform (build : Build) (c : Call) : Proc unit :=
  match c with
  | EventCall feature notification => onEvent feature notification
  | ErrorCall feature error msg => onError build feature error msg
  | SignalCall received_signal => on_signal received_signal
  end.

(** The calls run to completion one after the other; a call that ends the
    process ends the sequence. *)
Definition perform_all (build : Build) (calls : list Call) : Proc unit :=
  for_each calls (perform build).

Definition is_error_call (c : Call) : bool :=
  match c with ErrorCall _ _ _ => true | _ => false end.

(** The features [main] registers, in the order of its [push_back] calls. *)
Definition registered (s : Startup) : list Feature :=
  (if jobs_enabled s then [jobs s] else []) ++
  (if tunneling_enabled s then [tunneling s] else []).

Definition signal_log (received_signal : Z) : Effect :=
  Log INFO "Received signal: (%d)" [Number received_signal].

(** How a later state of the globals relates to an earlier one: the
    registry has only lost handles, the flag has not been cleared, and the
    [stop()] calls made in between are on handles of the earlier registry,
    all of them made by the one [shutdown()] that found the flag clear. *)
Record Later (g g' : Globals) : Prop := mkLater {
  later_features : features g' `sublist_of` features g;
  later_flag : attemptingShutdown g = true -> attemptingShutdown g' = true;
  later_calls : shutdown_calls (trace g) <= shutdown_calls (trace g');
  later_stops :
    exists extra,
      stops (trace g') = stops (trace g) ++ extra /\
      extra `sublist_of` features g /\
      (attemptingShutdown g' = false -> extra = []) /\
      (attemptingShutdown g = true -> extra = []) /\
      (attemptingShutdown g = false -> attemptingShutdown g' = true ->
       features g' `sublist_of` extra /\
       S (shutdown_calls (trace g)) <= shutdown_calls (trace g'))
}.

(** A call that ends the process through the [exit(0)] of [shutdown()]:
    the flag was set before the call, and the call entered [shutdown()]
    once. *)
Definition ends_by_exit (g : Globals) (t : Termination) (g' : Globals) : Prop :=
  t = Exit 0 /\ attemptingShutdown g = true /\ attemptingShutdown g' = true /\
  shutdown_calls (trace g') = S (shutdown_calls (trace g)).

(** Three calls that end a process with two features: an interrupt and the
    two [FEATURE_STOPPED] reports. *)
Definition interrupt_and_reports : list Call :=
  [SignalCall SIGINT; EventCall 8 FEATURE_STOPPED; EventCall 4 FEATURE_STOPPED].

(** A registry that holds one handle twice. *)
Definition twice_registered : Globals := mkGlobals [7; 7] false [].


End Main.

(** * The configuration resolver *)

Module Config.

(** Modelled from the spec: [source/config/Config.cpp] (the [PlainConfig]
    loaders and [Validate()]) is not among the sources; only its tests are.
    The model follows sections 3 and 4.1 of the specification and is
    checked against every test of [test/config/TestConfig.cpp] below. *)

(** Modelled from the spec: the fields of [ResolvedConfig] (the identity
    fields, [LogConfig] and the per-feature sub-configurations). *)
Inductive Field :=
| Endpoint | Cert | Key | RootCa | ThingName
| LogLevel | LogType | LogFile
| JobsEnabled
| TunnelingEnabled | TunnelingRegion | TunnelingToken
| TunnelingPort | TunnelingService | TunnelingSubscribe
| DefenderEnabled | DefenderInterval
| ProvisioningEnabled.

Definition field_type (f : Field) : Type :=
  match f with
  | Endpoint | Cert | Key | RootCa | ThingName
  | LogType | LogFile
  | TunnelingRegion | TunnelingToken | TunnelingService => string
  | LogLevel | TunnelingPort | DefenderInterval => Z
  | JobsEnabled | TunnelingEnabled | TunnelingSubscribe
  | DefenderEnabled | ProvisioningEnabled => bool
  end.

(** Modelled from the spec: a source layer "supplies a partial,
    optionally-absent view of ResolvedConfig fields". *)
Definition Layer := forall f : Field, option (field_type f).

Definition nothing : Layer := fun _ => None.

(** Modelled from the spec: "a higher-precedence layer overwrites a field
    only if it explicitly supplies a value; absence never overwrites
    presence". *)
Definition merge (lower higher : Layer) : Layer :=
  fun f => match higher f with
           | Some v => Some v
           | None => lower f
           end.

(** Layers applied from lowest to highest precedence. *)
Definition resolve_layers (defaults : Layer) (layers : list Layer) : Layer :=
  fold_left merge layers defaults.

(** Modelled from the spec: "built-in defaults < file-based JSON < CLI
    arguments < environment variables". *)
Definition resolve (defaults file cli env : Layer) : Layer :=
  resolve_layers defaults [file; cli; env].

(** Modelled from the spec: jobs, tunneling and device-defender default to
    enabled, fleet-provisioning to disabled, [subscribeNotification] to
    true.  This is a default-constructed [PlainConfig]. *)
Definition builtin_defaults : Layer :=
  fun f => match f return option (field_type f) with
           | JobsEnabled | TunnelingEnabled | DefenderEnabled => Some true
           | ProvisioningEnabled => Some false
           | TunnelingSubscribe => Some true
           | _ => None
           end.

(** ** Log levels *)

Definition lower_ascii (c : ascii) : ascii :=
  let n := nat_of_ascii c in
  if (65 <=? n) && (n <=? 90) then ascii_of_nat (n + 32) else c.

Fixpoint lowercase (s : string) : string :=
  match s with
  | EmptyString => EmptyString
  | String c s' => String (lower_ascii c) (lowercase s')
  end.

(** Modelled from the spec: "Log level strings map case-insensitively to
    an ordinal severity (error=0, warn=1, info=2, debug=3)"; other strings
    are not recognised. *)
Definition ParseLogLevel (s : string) : option Z :=
  let l := lowercase s in
  if String.eqb l "error" then Some 0%Z
  else if String.eqb l "warn" then Some 1%Z
  else if String.eqb l "info" then Some 2%Z
  else if String.eqb l "debug" then Some 3%Z
  else None.

(** ** The file layer *)

(** The parsed document behind a [JsonView]. *)
#[local] Unset Elimination Schemes.
Inductive Json :=
| JString (s : string)
| JBool (b : bool)
| JInt (n : Z)
| JObject (members : list (string * Json)).
#[local] Set Elimination Schemes.

Fixpoint find_member (k : string) (members : list (string * Json)) : option Json :=
  match members with
  | [] => None
  | (k', v) :: rest => if String.eqb k k' then Some v else find_member k rest
  end.

Definition member (k : string) (j : Json) : option Json :=
  match j with
  | JObject members => find_member k members
  | _ => None
  end.

Definition get_string (k : string) (j : Json) : option string :=
  match member k j with Some (JString s) => Some s | _ => None end.

Definition get_bool (k : string) (j : Json) : option bool :=
  match member k j with Some (JBool b) => Some b | _ => None end.

Definition get_int (k : string) (j : Json) : option Z :=
  match member k j with Some (JInt n) => Some n | _ => None end.

(** A field of a nested object, as in ["logging": {"level": ...}]. *)
Definition nested {A} (outer : string) (get : Json -> option A) (j : Json) : option A :=
  match member outer j with
  | Some inner => get inner
  | None => None
  end.

(** Modelled from the spec: the configuration file is "a top-level object
    containing identity fields, a nested logging object {level, type, file},
    and nested per-feature objects each with at least an enabled boolean
    and feature-specific fields".  The keys of the identity fields, of the
    logging object and of the [enabled] flags are those of the documents in
    [TestConfig.cpp]; no test document sets another tunneling field, and
    these are looked up under the names the specification gives them in
    [TunnelingConfig], spelled as the tested keys are.  The sink type is
    stored in lower case, as the resolved value of the logging scenario
    shows.  A level string that is not recognised stores no level; that it
    was given is kept by [levels_recognised], which fails validation. *)
Definition json_layer (j : Json) : Layer :=
  fun f => match f return option (field_type f) with
           | Endpoint => get_string "endpoint" j
           | Cert => get_string "cert" j
           | Key => get_string "key" j
           | RootCa => get_string "root-ca" j
           | ThingName => get_string "thing-name" j
           | LogLevel =>
               match nested "logging" (get_string "level") j with
               | Some s => ParseLogLevel s
               | None => None
               end
           | LogType => option_map lowercase (nested "logging" (get_string "type") j)
           | LogFile => nested "logging" (get_string "file") j
           | JobsEnabled => nested "jobs" (get_bool "enabled") j
           | TunnelingEnabled => nested "tunneling" (get_bool "enabled") j
           | DefenderEnabled => nested "device-defender" (get_bool "enabled") j
           | DefenderInterval => nested "device-defender" (get_int "interval") j
           | ProvisioningEnabled => nested "fleet-provisioning" (get_bool "enabled") j
           | TunnelingRegion => nested "tunneling" (get_string "region") j
           | TunnelingToken =>
               nested "tunneling" (get_string "destination-access-token") j
           | TunnelingPort => nested "tunneling" (get_int "port") j
           | TunnelingService => nested "tunneling" (get_string "service") j
           | TunnelingSubscribe =>
               nested "tunneling" (get_bool "subscribe-notification") j
           end.

(** ** The command-line layer *)

(** The keys of [CliArgs] that the tests name. *)
Inductive CliKey :=
| CLI_ENDPOINT | CLI_CERT | CLI_KEY | CLI_ROOT_CA | CLI_THING_NAME
| CLI_LOG_LEVEL | CLI_LOG_TYPE | CLI_LOG_FILE
| CLI_TUNNELING_REGION | CLI_TUNNELING_SERVICE
| CLI_TUNNELING_DISABLE_NOTIFICATION.

#[global] Instance CliKey_eq_dec : EqDecision CliKey.
Proof. solve_decision. Defined.

(** [CliArgs] is a map from keys to strings. *)
Definition CliArgs := CliKey -> option string.

Definition no_args : CliArgs := fun _ => None.

(** [cliArgs[k] = v] *)
Definition cli_set (k : CliKey) (v : string) (args : CliArgs) : CliArgs :=
  fun k' => if decide (k = k') then Some v else args k'.

(** Modelled from the spec: the CLI layer, with the flags the
    specification lists ("endpoint, cert, key, root-ca, thing-name, plus
    per-feature flags such as tunneling region/service/disable-notification,
    log level/type/file"): there is none for the port.  The "disable
    notification" flag is "presence-only, no value" and "forces"
    [subscribeNotification] false.  A level string that is not recognised
    stores no level; that it was given is kept by [levels_recognised],
    which fails validation. *)
Definition cli_layer (args : CliArgs) : Layer :=
  fun f => match f return option (field_type f) with
           | Endpoint => args CLI_ENDPOINT
           | Cert => args CLI_CERT
           | Key => args CLI_KEY
           | RootCa => args CLI_ROOT_CA
           | ThingName => args CLI_THING_NAME
           | LogLevel =>
               match args CLI_LOG_LEVEL with
               | Some s => ParseLogLevel s
               | None => None
               end
           | LogType => option_map lowercase (args CLI_LOG_TYPE)
           | LogFile => args CLI_LOG_FILE
           | TunnelingRegion => args CLI_TUNNELING_REGION
           | TunnelingService => args CLI_TUNNELING_SERVICE
           | TunnelingSubscribe =>
               match args CLI_TUNNELING_DISABLE_NOTIFICATION with
               | Some _ => Some false
               | None => None
               end
           | _ => None
           end.

(** ** The environment layer *)

(** [getenv] *)
Definition Env := string -> option string.

Definition no_env : Env := fun _ => None.

(** [setenv(name, value, 1)] *)
Definition setenv (name value : string) (env : Env) : Env :=
  fun name' => if String.eqb name name' then Some value else env name'.

(** Modelled from the spec: the environment carries "a secret-carrying
    variable for a tunneling access token"; its name is the one the tests
    set. *)
Definition env_layer (env : Env) : Layer :=
  fun f => match f return option (field_type f) with
           | TunnelingToken => env "AWSIOT_TUNNEL_ACCESS_TOKEN"
           | _ => None
           end.

(** ** [PlainConfig] *)

(** Modelled from the spec: the configuration under construction; each
    loader of the tests applies one layer to it, and a field that the
    layer does not supply keeps its value. *)
Definition PlainConfig := Layer.

Definition LoadFromJson (j : Json) (config : PlainConfig) : PlainConfig :=
  merge config (json_layer j).

Definition LoadFromCliArgs (args : CliArgs) (config : PlainConfig) : PlainConfig :=
  merge config (cli_layer args).

Definition LoadFromEnvironment (env : Env) (config : PlainConfig) : PlainConfig :=
  merge config (env_layer env).

(** ** Validation *)

(** [DISABLE_MQTT] builds the client in tunneling-only mode (the test
    calls it ST_COMPONENT_MODE). *)
Inductive Mode := FullClient | TunnelingOnly.

Definition supplied {A} (o : option A) : bool :=
  match o with Some _ => true | None => false end.

(** Modelled from the spec: the "top-level identity fields (endpoint, cert,
    key, root-ca, thing/device name)". *)
Definition identity_supplied (config : PlainConfig) : bool :=
  supplied (config Endpoint) && supplied (config Cert) && supplied (config Key) &&
  supplied (config RootCa) && supplied (config ThingName).

(** Modelled from the spec: a flag that is "absent from input ... defaults
    to a known per-feature default". *)
Definition tunneling_enabled (config : PlainConfig) : bool :=
  match merge builtin_defaults config TunnelingEnabled with
  | Some b => b
  | None => true
  end.

Definition subscribe_notification (config : PlainConfig) : bool :=
  match merge builtin_defaults config TunnelingSubscribe with
  | Some b => b
  | None => true
  end.

(** Modelled from the spec: the three inputs of
    [resolve(fileJson, cliArgs, env)]; there may be no file. *)
Record Inputs := mkInputs {
  input_file : option Json;
  input_args : CliArgs;
  input_env : Env
}.

(** Modelled from the spec: the layers applied in the order of precedence
    to a default-constructed configuration, by the loaders the tests call
    in that order. *)
Definition loaded (i : Inputs) : PlainConfig :=
  LoadFromEnvironment (input_env i)
    (LoadFromCliArgs (input_args i)
       match input_file i with
       | Some j => LoadFromJson j builtin_defaults
       | None => builtin_defaults
       end).

Definition all_cli_keys : list CliKey :=
  [CLI_ENDPOINT; CLI_CERT; CLI_KEY; CLI_ROOT_CA; CLI_THING_NAME;
   CLI_LOG_LEVEL; CLI_LOG_TYPE; CLI_LOG_FILE;
   CLI_TUNNELING_REGION; CLI_TUNNELING_SERVICE;
   CLI_TUNNELING_DISABLE_NOTIFICATION].

(** Modelled from the spec: "If no file and no CLI/env values are present
    at all, fail." *)
Definition has_input (i : Inputs) : bool :=
  supplied (input_file i) ||
  existsb (fun k => supplied (input_args i k)) all_cli_keys ||
  supplied (input_env i "AWSIOT_TUNNEL_ACCESS_TOKEN").

(** Modelled from the spec: "unrecognized strings fail validation", for
    the level of the file and the level of the command line. *)
Definition level_recognised (text : option string) : bool :=
  match text with
  | Some s => supplied (ParseLogLevel s)
  | None => true
  end.

Definition file_level (i : Inputs) : option string :=
  match input_file i with
  | Some j => nested "logging" (get_string "level") j
  | None => None
  end.

Definition levels_recognised (i : Inputs) : bool :=
  level_recognised (file_level i) &&
  level_recognised (input_args i CLI_LOG_LEVEL).

(** Modelled from the spec: the "explicit port" of an input.  Only the
    file has a key for it. *)
Definition explicit_port (i : Inputs) : option Z :=
  match input_file i with
  | Some j => nested "tunneling" (get_int "port") j
  | None => None
  end.

(** Modelled from the spec: the "service name" an input supplies, that of
    the command line, else that of the file. *)
Definition service_name (i : Inputs) : option string :=
  match input_args i CLI_TUNNELING_SERVICE with
  | Some name => Some name
  | None =>
      match input_file i with
      | Some j => nested "tunneling" (get_string "service") j
      | None => None
      end
  end.

(** Modelled from the spec:
    [TunnelingConfig{enabled, region, destinationAccessToken, port, service,
    subscribeNotification}]. *)
Record Tunneling := mkTunneling {
  enabled : bool;
  region : option string;
  destinationAccessToken : option string;
  port : option Z;
  service : option string;
  subscribeNotification : bool
}.

(** Modelled from the spec: the tunneling sub-configuration of a
    configuration, flags that no layer supplies at their defaults. *)
Definition tunneling_of (config : PlainConfig) : Tunneling :=
  mkTunneling (tunneling_enabled config) (config TunnelingRegion)
              (config TunnelingToken) (config TunnelingPort)
              (config TunnelingService) (subscribe_notification config).

Section Resolver.

(** The static service-to-port table of the tunneling feature
    ([GetPortFromService]); it is not part of the resolver and is taken
    as given. *)
Variable port_of_service : string -> option Z.

(** Modelled from the spec: "if a service name is supplied without an
    explicit port, the port is derived from a static service-to-port
    lookup"; "an explicit port always takes precedence over the derived
    one". *)
Definition resolved_port (config : PlainConfig) : option Z :=
  match config TunnelingPort with
  | Some number => Some number
  | None =>
      match config TunnelingService with
      | Some name => port_of_service name
      | None => None
      end
  end.

(** Modelled from the spec: the configuration with the derived port
    stored in its port field, where the tests read it
    ([config.tunneling.port.value()]). *)
Definition with_resolved_port (config : PlainConfig) : PlainConfig :=
  fun f =>
    match f return option (field_type f) -> option (field_type f) with
    | TunnelingPort => fun _ => resolved_port config
    | _ => fun value => value
    end (config f).

(** Modelled from the spec: the [ResolvedConfig] of
    [resolve(fileJson, cliArgs, env)]. *)
Definition resolved (i : Inputs) : PlainConfig :=
  with_resolved_port (loaded i).

(** What a tunneling configuration must satisfy to validate
    ([Tunneling::Validate()]).  The code that decides it is not among the
    sources.  The specification has one sentence on it, "if neither is
    resolvable, validation fails when tunneling is enabled", which the
    tests contradict ([HappyCaseMinimumConfig] and
    [SecureTunnelingMinimumConfig] validate a tunneling-enabled
    configuration that has neither), and nothing else fixes the rule.  It
    is therefore taken as given; the tests tell its value on two
    configurations, [tested_default] and [tested_cli]. *)
Variable tunneling_valid : Tunneling -> bool.

(** Modelled from the spec: the [ok] of
    [resolve(fileJson, cliArgs, env)], by the validation rules of section
    4.1: some input is present; the level strings are recognised; "Top-level
    identity fields are required UNLESS the build/deployment mode is
    tunneling-only, in which case only tunneling-relevant fields are
    required"; the tunneling fields are valid. *)
Definition Validate (mode : Mode) (i : Inputs) : bool :=
  has_input i && levels_recognised i &&
  match mode with
  | FullClient => identity_supplied (resolved i)
  | TunnelingOnly => true
  end &&
  tunneling_valid (tunneling_of (resolved i)).


(** The last part of C8, as it stands: with tunneling enabled and no port
    resolved, validation fails. *)
Definition port_or_failure (mode : Mode) (i : Inputs) : Prop :=
  enabled (tunneling_of (resolved i)) = true ->
  port (tunneling_of (resolved i)) = None ->
  Validate mode i = false.

End Resolver.


(** A table with the one entry the specification gives. *)
Definition ssh_only (service : string) : option Z :=
  if String.eqb service "SSH" then Some 22%Z else None.

(** ** The documents and arguments of [TestConfig.cpp] *)

Definition identity_members : list (string * Json) :=
  [("endpoint", JString "endpoint value"); ("cert", JString "cert");
   ("key", JString "key"); ("root-ca", JString "root-ca");
   ("thing-name", JString "thing-name value")].

Definition all_features_json : Json :=
  JObject (identity_members ++
    [("logging", JObject [("level", JString "debug"); ("type", JString "file");
                          ("file", JString "./aws-iot-device-client.log")]);
     ("jobs", JObject [("enabled", JBool true)]);
     ("tunneling", JObject [("enabled", JBool true)]);
     ("device-defender", JObject [("enabled", JBool true); ("interval", JInt 300)])]).

Definition minimum_json : Json := JObject identity_members.

Definition minimum_cli : CliArgs :=
  cli_set CLI_THING_NAME "thing-name value"
    (cli_set CLI_ROOT_CA "root-ca"
       (cli_set CLI_KEY "key"
          (cli_set CLI_CERT "cert"
             (cli_set CLI_ENDPOINT "endpoint value" no_args)))).

(** [MissingSomeSettings]: the document without its endpoint. *)
Definition missing_endpoint_json : Json :=
  JObject [("cert", JString "cert"); ("key", JString "key");
           ("root-ca", JString "root-ca");
           ("thing-name", JString "thing-name value")].

Definition tunneling_json : Json :=
  JObject (identity_members ++ [("tunneling", JObject [("enabled", JBool true)])]).

Definition tunneling_cli : CliArgs :=
  cli_set CLI_TUNNELING_DISABLE_NOTIFICATION ""
    (cli_set CLI_TUNNELING_SERVICE "SSH"
       (cli_set CLI_TUNNELING_REGION "region value" no_args)).

Definition tunneling_env : Env :=
  setenv "AWSIOT_TUNNEL_ACCESS_TOKEN" "destination_access_token_value" no_env.

(** [SecureTunnelingDisableSubscription] sets the same keys in another order. *)
Definition tunneling_cli_reordered : CliArgs :=
  cli_set CLI_TUNNELING_SERVICE "SSH"
    (cli_set CLI_TUNNELING_REGION "region value"
       (cli_set CLI_TUNNELING_DISABLE_NOTIFICATION "" no_args)).

Definition logging_json : Json :=
  JObject (identity_members ++
    [("logging", JObject [("level", JString "DEBUG"); ("type", JString "STDOUT");
                          ("file", JString "old-json-log.log")])]).

Definition logging_cli : CliArgs :=
  cli_set CLI_LOG_FILE "./client.log"
    (cli_set CLI_LOG_TYPE "FILE"
       (cli_set CLI_LOG_LEVEL "warn" no_args)).

(** A file layer that carries an access token of its own. *)
Definition token_in_file : Layer :=
  fun f => match f return option (field_type f) with
           | TunnelingToken => Some "token from the file"
           | _ => None
           end.

(** The inputs of the tests. *)
Definition from_file (j : Json) : Inputs := mkInputs (Some j) no_args no_env.

Definition secure_tunneling_cli : Inputs :=
  mkInputs (Some tunneling_json) tunneling_cli tunneling_env.

Definition secure_tunneling_disable_subscription : Inputs :=
  mkInputs (Some tunneling_json) tunneling_cli_reordered tunneling_env.

(** The tunneling configuration of the tests that load no tunneling field,
    or only ["enabled": true]; [AllFeaturesEnabled], [HappyCaseMinimumConfig],
    [HappyCaseMinimumCli] and [SecureTunnelingMinimumConfig] assert that
    it validates, [MissingSomeSettings] that it does in tunneling-only
    mode. *)
Definition tested_default : Tunneling :=
  mkTunneling true None None None None true.

(** The tunneling configuration of [SecureTunnelingCli] and
    [SecureTunnelingDisableSubscription], which assert that it validates. *)
Definition tested_cli : Tunneling :=
  mkTunneling true (Some "region value") (Some "destination_access_token_value")
              (Some 22%Z) (Some "SSH") false.

(** A rule for the tunneling fields that accepts them all. *)
Definition accept_all (t : Tunneling) : bool := true.

(** No input at all. *)
Definition no_input : Inputs := mkInputs None no_args no_env.


(** The document of [SecureTunnelingCli] with a port of its own. *)
Definition tunneling_port_json : Json :=
  JObject (identity_members ++
    [("tunneling", JObject [("enabled", JBool true); ("port", JInt 2222)])]).

(** A document that names its service itself. *)
Definition tunneling_service_json : Json :=
  JObject (identity_members ++
    [("tunneling", JObject [("enabled", JBool true); ("service", JString "SSH")])]).

End Config.

(** * Properties of [main.cpp] *)

Module MainProperties.
Import Main.

Ltac proc_run :=
  unfold mbind, Proc_bind, bind, mret, Proc_ret, ret, get, log, emit,
    set_features, set_attemptingShutdown, terminate, with_trace; cbn.

Lemma stops_app t1 t2 : stops (t1 ++ t2) = stops t1 ++ stops t2.
Proof.
  induction t1 as [|e t1 IH]; [done|].
  destruct e; simpl; by rewrite IH.
Qed.

Lemma shutdown_calls_app t1 t2 :
  shutdown_calls (t1 ++ t2) = shutdown_calls t1 + shutdown_calls t2.
Proof.
  induction t1 as [|e t1 IH]; [done|].
  destruct e; simpl; by rewrite IH.
Qed.

Lemma stops_stop_effects fs : stops (stop_effects fs) = fs.
Proof. induction fs as [|f fs IH]; [done|]. simpl. by rewrite IH. Qed.

Lemma shutdown_calls_stop_effects fs : shutdown_calls (stop_effects fs) = 0.
Proof. induction fs as [|f fs IH]; [done|]. done. Qed.

(** ** The erase loop *)

Lemma erase_loop_scan fuel feature : forall i l,
  length l - i <= fuel ->
  erase_loop fuel feature i l = take i l ++ erase_scan feature (drop i l).
Proof.
  induction fuel as [|fuel IH]; intros i l Hfuel; cbn [erase_loop].
  - rewrite drop_ge by lia. rewrite take_ge by lia. by rewrite app_nil_r.
  - destruct (Nat.ltb_spec i (length l)) as [Hlt|Hge].
    + destruct (lookup_lt_is_Some_2 l i Hlt) as [x Hx]. rewrite Hx.
      rewrite (drop_S l x i Hx). cbn [erase_scan].
      destruct (Nat.eqb_spec x feature) as [->|Hne].
      * rewrite IH by (rewrite length_delete by eauto; lia).
        rewrite delete_take_drop.
        destruct (drop (S i) l) as [|y t] eqn:Hd.
        -- rewrite app_nil_r. rewrite take_ge by (rewrite length_take; lia).
           rewrite drop_ge by (rewrite length_take; lia). by rewrite app_nil_r.
        -- assert (Hi : length (take i l) = i) by (rewrite length_take; lia).
           rewrite take_app_ge by lia. rewrite drop_app_ge by lia.
           rewrite Hi. replace (S i - i) with 1 by lia. simpl.
           rewrite drop_0, take_0. by rewrite <- app_assoc.
      * rewrite IH by lia. rewrite (take_S_r l i x Hx).
        by rewrite <- app_assoc.
    + rewrite drop_ge by lia. rewrite take_ge by lia. by rewrite app_nil_r.
Qed.

Lemma erase_feature_scan feature l : erase_feature feature l = erase_scan feature l.
Proof. unfold erase_feature. rewrite erase_loop_scan by lia. by rewrite drop_0. Qed.

(** More iterations than [features.size()] change nothing: the loop has
    stopped by then. *)
Lemma erase_loop_fuel feature l k :
  erase_loop (length l + k) feature 0 l = erase_feature feature l.
Proof.
  unfold erase_feature. rewrite !erase_loop_scan by lia. done.
Qed.

Lemma erase_scan_absent feature l : feature ∉ l -> erase_scan feature l = l.
Proof.
  induction l as [|x t IH]; [done|]. intros Hnotin.
  apply not_elem_of_cons in Hnotin as [Hne Ht]. simpl.
  destruct (Nat.eqb_spec x feature); [congruence|]. by rewrite IH.
Qed.

Lemma erase_scan_NoDup feature l :
  NoDup l -> erase_scan feature l = filter (fun x => x <> feature) l.
Proof.
  induction l as [|x t IH]; [done|]. intros Hnd.
  apply NoDup_cons in Hnd as [Hx Ht]. simpl.
  destruct (Nat.eqb_spec x feature) as [->|Hne].
  - rewrite filter_cons_False by tauto.
    rewrite <- IH by done. rewrite (erase_scan_absent feature t) by done.
    destruct t as [|y t']; [done|].
    apply not_elem_of_cons in Hx as [_ Hx]. by rewrite erase_scan_absent.
  - rewrite filter_cons_True by done. by rewrite IH.
Qed.

Lemma erase_scan_length_aux feature l :
  length (erase_scan feature l) <= length l /\
  forall x, length (erase_scan feature (x :: l)) <= S (length l).
Proof.
  induction l as [|y t [IH1 IH2]].
  - split; [done|]. intros x. cbn. destruct (Nat.eqb x feature); cbn; lia.
  - split; [apply IH2|]. intros x.
    change (erase_scan feature (x :: y :: t))
      with (if Nat.eqb x feature then y :: erase_scan feature t
            else x :: erase_scan feature (y :: t)).
    specialize (IH2 y).
    destruct (Nat.eqb x feature); cbn [length]; lia.
Qed.

Lemma erase_scan_length feature l : length (erase_scan feature l) <= length l.
Proof. apply erase_scan_length_aux. Qed.


Lemma erase_feature_NoDup feature l :
  NoDup l -> erase_feature feature l = filter (fun x => x <> feature) l.
Proof. rewrite erase_feature_scan. apply erase_scan_NoDup. Qed.

(** Where a handle sits twice in a row the loop removes one copy only. *)
Example erase_feature_adjacent : erase_feature 7 [7; 7; 3] = [7; 3].
Proof. reflexivity. Qed.

Lemma int_of_size_t_small n :
  (0 <= n <= INT_MAX)%Z -> int_of_size_t n = n.
Proof.
  intros Hn. unfold int_of_size_t, INT_MAX in *.
  rewrite Z.mod_small by lia.
  destruct (Z.leb_spec n 2147483647); lia.
Qed.

(** ** [shutdown()], first and later calls *)

Lemma for_each_stop fs g :
  for_each fs stop_feature g = Returns tt (with_trace g (trace g ++ stop_effects fs)).
Proof.
  revert g. induction fs as [|f fs IH]; intros g.
  - destruct g. cbn. unfold with_trace. cbn. by rewrite app_nil_r.
  - cbn [for_each]. unfold mbind, Proc_bind, bind.
    unfold stop_feature at 1. unfold mbind, Proc_bind, bind, log, emit.
    rewrite IH. unfold with_trace, stop_effects. cbn.
    by rewrite <- !app_assoc.
Qed.

Lemma shutdown_first g :
  attemptingShutdown g = false ->
  shutdown g = Returns tt
    (mkGlobals (features g) true
       (trace g ++ EnterShutdown :: stop_effects (features g) ++ [LoggerShutdown])).
Proof.
  intros Hflag. unfold shutdown, mbind, Proc_bind, bind. cbn.
  rewrite Hflag. cbn. rewrite for_each_stop. unfold emit, with_trace. cbn.
  by rewrite <- !app_assoc.
Qed.

Lemma shutdown_again g :
  attemptingShutdown g = true ->
  shutdown g = Terminated (Exit 0)
    (with_trace g (trace g ++ [EnterShutdown; LoggerShutdown])).
Proof.
  intros Hflag. unfold shutdown. proc_run. rewrite Hflag. cbn.
  by rewrite <- app_assoc.
Qed.

(** Whatever the flag, one call of [shutdown()] is one entry, and the
    registry is not touched. *)
Lemma shutdown_effect g :
  features (final (shutdown g)) = features g /\
  shutdown_calls (trace (final (shutdown g))) = S (shutdown_calls (trace g)) /\
  attemptingShutdown (final (shutdown g)) = true.
Proof.
  destruct (attemptingShutdown g) eqn:Hflag.
  - rewrite shutdown_again by done. cbn. rewrite shutdown_calls_app. cbn.
    repeat split; [lia | done].
  - rewrite shutdown_first by done. cbn.
    rewrite shutdown_calls_app. cbn. rewrite shutdown_calls_app.
    rewrite shutdown_calls_stop_effects. cbn. repeat split; lia.
Qed.

(** ** [handle_feature_stopped()] and the notifier *)

Lemma stopped_locked_eq feature g :
  stopped_locked feature g =
  Returns (int_of_size_t (Z.of_nat (length (erase_feature feature (features g)))))
          (mkGlobals (erase_feature feature (features g))
                     (attemptingShutdown g) (trace g)).
Proof. reflexivity. Qed.

Lemma handle_feature_stopped_eq feature g :
  handle_feature_stopped feature g =
  stopped_unlocked
    (int_of_size_t (Z.of_nat (length (erase_feature feature (features g)))))
    (mkGlobals (erase_feature feature (features g))
               (attemptingShutdown g) (trace g)).
Proof. reflexivity. Qed.

Lemma stopped_unlocked_zero g :
  stopped_unlocked 0 g =
  shutdown (with_trace g (trace g ++ [Log INFO "All features have stopped" []])).
Proof. reflexivity. Qed.

Lemma stopped_unlocked_nonzero size g :
  size <> 0%Z -> stopped_unlocked size g = Returns tt g.
Proof.
  intros Hsize. unfold stopped_unlocked.
  destruct (Z.eqb_spec 0 size); [congruence|]. reflexivity.
Qed.

Lemma stopped_unlocked_features size g :
  features (final (stopped_unlocked size g)) = features g.
Proof.
  destruct (Z.eq_dec size 0%Z) as [->|Hne].
  - rewrite stopped_unlocked_zero. by destruct (shutdown_effect
      (with_trace g (trace g ++ [Log INFO "All features have stopped" []]))) as [-> _].
  - by rewrite stopped_unlocked_nonzero.
Qed.

(** Once set, [attemptingShutdown] is never cleared. *)
Lemma stopped_unlocked_flag size g :
  attemptingShutdown g = true ->
  attemptingShutdown (final (stopped_unlocked size g)) = true.
Proof.
  intros Hflag. destruct (Z.eq_dec size 0%Z) as [->|Hne].
  - rewrite stopped_unlocked_zero. apply shutdown_effect.
  - by rewrite stopped_unlocked_nonzero.
Qed.

Lemma onEvent_flag feature notification g :
  attemptingShutdown g = true ->
  attemptingShutdown (final (onEvent feature notification g)) = true.
Proof.
  intros Hflag. destruct notification; [done| |done].
  change (onEvent feature FEATURE_STOPPED g) with
    (handle_feature_stopped feature
       (with_trace g (trace g ++ [Log INFO "%s has stopped" [NameOf feature]]))).
  rewrite handle_feature_stopped_eq. by apply stopped_unlocked_flag.
Qed.

Lemma onError_flag build feature error msg g :
  attemptingShutdown g = true ->
  attemptingShutdown (final (onError build feature error msg g)) = true.
Proof. intros Hflag. by destruct build, error. Qed.

(** C2. A call of [shutdown()] made while [attemptingShutdown] is clear
    returns with the flag set, having called [stop()] on each handle of the
    registry snapshot, in order.  Every call made once the flag is set, in
    whatever state, calls no [stop()]: it releases the logger and exits. *)
Theorem shutdown_second_call_stops_nothing (g : Globals) :
  attemptingShutdown g = false ->
  exists g1,
    shutdown g = Returns tt g1 /\
    attemptingShutdown g1 = true /\
    stops (trace g1) = stops (trace g) ++ features g /\
    forall g2, attemptingShutdown g2 = true ->
      shutdown g2 = Terminated (Exit 0)
                      (with_trace g2 (trace g2 ++ [EnterShutdown; LoggerShutdown])) /\
      stops (trace (final (shutdown g2))) = stops (trace g2).
Proof.
  intros Hflag. eexists. split; [by apply shutdown_first|]. cbn.
  split; [done|]. split.
  - rewrite stops_app. cbn. rewrite stops_app, stops_stop_effects. cbn.
    by rewrite app_nil_r.
  - intros g2 Hset. rewrite shutdown_again by done. split; [done|].
    cbn. rewrite stops_app. cbn. by rewrite app_nil_r.
Qed.

Lemma shutdown_second_call_stops_nothing_witness :
  attemptingShutdown (mkGlobals [4; 8] false []) = false /\
  exists g1,
    shutdown (mkGlobals [4; 8] false []) = Returns tt g1 /\
    attemptingShutdown g1 = true /\
    stops (trace g1) = stops [] ++ [4; 8] /\
    forall g2, attemptingShutdown g2 = true ->
      shutdown g2 = Terminated (Exit 0)
                      (with_trace g2 (trace g2 ++ [EnterShutdown; LoggerShutdown])) /\
      stops (trace (final (shutdown g2))) = stops (trace g2).
Proof.
  split; [reflexivity|].
  apply (shutdown_second_call_stops_nothing (mkGlobals [4; 8] false [])).
  reflexivity.
Defined.

(** In a debug build a rejected subscription aborts the process. *)
Lemma subscription_rejected_fatal_in_debug :
  ~ subscription_rejected_nonfatal DebugBuild 1 "denied" initial.
Proof. unfold subscription_rejected_nonfatal. cbn. discriminate. Qed.

(** C3, amended.  A [SUBSCRIPTION_REJECTED] error is logged.  In a release
    build ([NDEBUG]) nothing else happens: [onError] returns, the registry
    and the shutdown flag are as before.  In a debug build the fatal-error
    line is logged, the logger is shut down and the process aborts. *)
Theorem subscription_rejected_by_build (feature : Feature) (msg : string) (g : Globals) :
  subscription_rejected_nonfatal ReleaseBuild feature msg g /\
  onError DebugBuild feature SUBSCRIPTION_REJECTED msg g =
  Terminated Abort
    (with_trace g (trace g ++
       [Log ERROR "Subscription rejected: %s" [Text msg];
        Log ERROR "*** DC FATAL ERROR: Aborting program due to unrecoverable feature error! ***" [];
        LoggerShutdown])).
Proof.
  split.
  - reflexivity.
  - unfold onError. proc_run. by rewrite <- !app_assoc.
Qed.

(** C4. A [MESSAGE_RECEIVED_AFTER_SHUTDOWN] error is logged (the case
    falls through to [default:], which logs a second error line).  A debug
    build then logs the fatal-error line, shuts the logger down and aborts;
    a release build returns with the registry and the flag as they were. *)
Theorem message_after_shutdown_by_build (feature : Feature) (msg : string) (g : Globals) :
  onError DebugBuild feature MESSAGE_RECEIVED_AFTER_SHUTDOWN msg g =
  Terminated Abort
    (with_trace g (trace g ++
       [Log ERROR "Received message after feature shutdown: %s" [Text msg];
        Log ERROR "DefaultClientBaseNotifier hit default ERROR switch case for feature: "
            [NameOf feature];
        Log ERROR "*** DC FATAL ERROR: Aborting program due to unrecoverable feature error! ***" [];
        LoggerShutdown])) /\
  onError ReleaseBuild feature MESSAGE_RECEIVED_AFTER_SHUTDOWN msg g =
  Returns tt
    (with_trace g (trace g ++
       [Log ERROR "Received message after feature shutdown: %s" [Text msg];
        Log ERROR "DefaultClientBaseNotifier hit default ERROR switch case for feature: "
            [NameOf feature]])).
Proof.
  split; unfold onError, onError_default; proc_run; by rewrite <- !app_assoc.
Qed.




(** The same delivery once a shutdown has begun: the process ends. *)
Example unknown_feature_after_first_shutdown :
  handle_feature_stopped 9 (mkGlobals [] true []) =
  Terminated (Exit 0)
    (mkGlobals [] true
       [Log INFO "All features have stopped" []; EnterShutdown; LoggerShutdown]).
Proof. reflexivity. Qed.

(** The same delivery on a registry that holds other handles: nothing is
    removed and [shutdown()] is not entered. *)
Example unknown_feature_on_nonempty_registry :
  handle_feature_stopped 9 (mkGlobals [4; 8] false []) =
  Returns tt (mkGlobals [4; 8] false []).
Proof. reflexivity. Qed.

(** C10. A call of [shutdown()] made with [attemptingShutdown] set ends the
    process through [exit(0)]; a failure of [Config::ParseCliArgs] or of
    [config.init] makes [main] return 0.  Both are status 0, not [abort()]. *)
Theorem second_shutdown_exits_zero (g : Globals) (s : Startup) (signals : list Z) :
  attemptingShutdown g = true ->
  parse_cli_ok s && config_init_ok s = false ->
  termination (shutdown g) = Some (Exit 0) /\
  main s signals initial = Terminated (Exit 0) (mkGlobals [] false [LoggerShutdown]).
Proof.
  intros Hflag Hconfig. split.
  - by rewrite shutdown_again.
  - unfold main, main_startup. proc_run.
    destruct (parse_cli_ok s), (config_init_ok s); done.
Qed.

Lemma second_shutdown_exits_zero_witness :
  attemptingShutdown (mkGlobals [4] true []) = true /\
  (parse_cli_ok (mkStartup true false true true true 4 8) &&
     config_init_ok (mkStartup true false true true true 4 8)) = false /\
  termination (shutdown (mkGlobals [4] true [])) = Some (Exit 0) /\
  main (mkStartup true false true true true 4 8) [SIGINT] initial =
    Terminated (Exit 0) (mkGlobals [] false [LoggerShutdown]).
Proof.
  split; [reflexivity|]. split; [reflexivity|].
  apply second_shutdown_exits_zero; reflexivity.
Defined.

(** The other way out of [main]: a resource manager that fails to
    initialise aborts the process. *)
Lemma initialize_failure_aborts s signals :
  parse_cli_ok s = true -> config_init_ok s = true -> initialize_ok s = false ->
  termination (main s signals initial) = Some Abort.
Proof.
  intros Hparse Hinit Hcrt. unfold main, main_startup. proc_run.
  by rewrite Hparse, Hinit, Hcrt.
Qed.

(** ** Concurrent deliveries: the invariant *)

(** The three steps of a thread, run back to back, are [onEvent]. *)
Lemma thread_steps_onEvent feature g :
  (pc1 ← thread_step (AtOnEvent feature); pc2 ← thread_step pc1; thread_step pc2) g =
  (onEvent feature FEATURE_STOPPED;; mret Returned) g.
Proof.
  unfold thread_step, onEvent, handle_feature_stopped. proc_run.
  by rewrite !stopped_locked_eq.
Qed.

Lemma zeros_app pcs1 pcs2 : zeros (pcs1 ++ pcs2) = zeros pcs1 + zeros pcs2.
Proof. induction pcs1 as [|pc pcs1 IH]; cbn; [done|]. rewrite IH. lia. Qed.

Lemma pending_app pcs1 pcs2 : pending (pcs1 ++ pcs2) = pending pcs1 ++ pending pcs2.
Proof. apply flat_map_app. Qed.

Section AtThread.
Variables (pcs : list Pc) (t : nat) (pc : Pc).
Hypothesis Hpc : pcs !! t = Some pc.

Lemma pending_at :
  pending pcs = pending (take t pcs) ++ pending_of pc ++ pending (drop (S t) pcs).
Proof.
  rewrite <- (take_drop_middle pcs t pc Hpc) at 1.
  rewrite pending_app. cbn. done.
Qed.

Lemma pending_insert pc' :
  pending (<[t := pc']> pcs) =
  pending (take t pcs) ++ pending_of pc' ++ pending (drop (S t) pcs).
Proof.
  rewrite insert_take_drop by (by eapply lookup_lt_Some).
  rewrite pending_app. cbn. done.
Qed.

Lemma zeros_at :
  zeros pcs = zeros (take t pcs) + zero_of pc + zeros (drop (S t) pcs).
Proof.
  rewrite <- (take_drop_middle pcs t pc Hpc) at 1.
  rewrite zeros_app. cbn. lia.
Qed.

Lemma zeros_insert pc' :
  zeros (<[t := pc']> pcs) =
  zeros (take t pcs) + zero_of pc' + zeros (drop (S t) pcs).
Proof.
  rewrite insert_take_drop by (by eapply lookup_lt_Some).
  rewrite zeros_app. cbn. lia.
Qed.
End AtThread.

Lemma filter_all_true {A} (P : A -> Prop) `{forall x, Decision (P x)} (l : list A) :
  Forall P l -> filter P l = l.
Proof.
  induction 1 as [|x l Hx Hl IH]; [done|].
  rewrite filter_cons_True by done. by rewrite IH.
Qed.

(** Erasing a handle from a duplicate-free registry removes exactly it. *)
Lemma erase_feature_Permutation feature fs rest :
  NoDup fs -> fs ≡ₚ feature :: rest ->
  erase_feature feature fs ≡ₚ rest.
Proof.
  intros Hnd Hperm. rewrite erase_feature_NoDup by done.
  rewrite Hperm. rewrite Hperm in Hnd.
  apply NoDup_cons in Hnd as [Hnotin _].
  rewrite filter_cons_False by tauto.
  rewrite filter_all_true; [done|].
  apply Forall_forall. intros x Hx ->. done.
Qed.

Lemma all_returned_pending pcs :
  Forall (fun pc => pc = Returned) pcs -> pending pcs = [] /\ zeros pcs = 0.
Proof.
  induction 1 as [|pc pcs -> _ [IH1 IH2]]; [done|]. cbn. by rewrite IH2.
Qed.

Lemma stopped_unlocked_calls size g :
  shutdown_calls (trace (final (stopped_unlocked size g))) =
  zero_of (AtCheck size) + shutdown_calls (trace g).
Proof.
  destruct (Z.eq_dec size 0%Z) as [->|Hne].
  - rewrite stopped_unlocked_zero.
    destruct (shutdown_effect
      (with_trace g (trace g ++ [Log INFO "All features have stopped" []])))
      as (_ & -> & _).
    cbn. rewrite shutdown_calls_app. cbn. lia.
  - rewrite stopped_unlocked_nonzero by done. unfold zero_of.
    destruct (Z.eqb_spec 0 size); [congruence | reflexivity].
Qed.

Lemma stopped_unlocked_Terminated size g k g' :
  stopped_unlocked size g = Terminated k g' -> zero_of (AtCheck size) = 1.
Proof.
  intros Hrun. unfold zero_of. destruct (Z.eqb_spec 0 size) as [|Hne]; [done|].
  rewrite stopped_unlocked_nonzero in Hrun by congruence. discriminate.
Qed.

Lemma schedule_step_Returns t g pcs pc pc' g' :
  pcs !! t = Some pc -> thread_step pc g = Returns pc' g' ->
  schedule_step t (mkSystem g None pcs) = mkSystem g' None (<[t := pc']> pcs).
Proof. intros Hpc Hstep. unfold schedule_step. cbn. by rewrite Hpc, Hstep. Qed.

Lemma schedule_step_Terminated t g pcs pc k g' :
  pcs !! t = Some pc -> thread_step pc g = Terminated k g' ->
  schedule_step t (mkSystem g None pcs) = mkSystem g' (Some k) pcs.
Proof. intros Hpc Hstep. unfold schedule_step. cbn. by rewrite Hpc, Hstep. Qed.

Lemma schedule_step_idle t s :
  ended s <> None \/ threads s !! t = None -> schedule_step t s = s.
Proof.
  unfold schedule_step. intros [Hended|Hnone].
  - by destruct (ended s).
  - rewrite Hnone. by destruct (ended s).
Qed.

Lemma thread_step_AtLock feature g :
  thread_step (AtLock feature) g =
  Returns (AtCheck (int_of_size_t (Z.of_nat (length (erase_feature feature (features g))))))
          (mkGlobals (erase_feature feature (features g))
                     (attemptingShutdown g) (trace g)).
Proof. reflexivity. Qed.

Lemma thread_step_AtCheck size g :
  thread_step (AtCheck size) g =
  match stopped_unlocked size g with
  | Returns _ g' => Returns Returned g'
  | Terminated k g' => Terminated k g'
  end.
Proof. reflexivity. Qed.

Lemma schedule_step_Inv calls0 t s :
  Inv calls0 s -> Inv calls0 (schedule_step t s).
Proof.
  intros HI. destruct s as [g e pcs].
  destruct e as [k|]; [by rewrite schedule_step_idle by (left; done)|].
  destruct (pcs !! t) as [pc|] eqn:Hpc;
    [|by rewrite schedule_step_idle by (right; done)].
  destruct HI as [Hnd Hreg Hbound Hmono Hcount]; cbn [ended threads globals] in *.
  rewrite (pending_at pcs t pc Hpc) in Hnd, Hreg, Hcount.
  rewrite (zeros_at pcs t pc Hpc) in Hcount.
  destruct pc as [feature|feature|size|].
  - (* the log line of onEvent *)
    rewrite (schedule_step_Returns t g pcs _ _ _ Hpc eq_refl).
    split; cbn [ended threads globals features trace];
      rewrite ?(pending_insert pcs t _ Hpc), ?(zeros_insert pcs t _ Hpc),
        ?shutdown_calls_app; cbn [shutdown_calls pending_of zero_of] in *;
      try done; lia.
  - (* the locked section *)
    rewrite (schedule_step_Returns t g pcs _ _ _ Hpc (thread_step_AtLock feature g)).
    cbn [pending_of zero_of] in *.
    set (L := pending (take t pcs)) in *.
    set (R := pending (drop (S t) pcs)) in *.
    assert (Hmid : L ++ [feature] ++ R ≡ₚ feature :: (L ++ R))
      by (symmetry; apply Permutation_middle).
    assert (Hnd' : NoDup (L ++ R)).
    { rewrite Hmid in Hnd. by apply NoDup_cons in Hnd as [_ ?]. }
    assert (Hfs : NoDup (features g)) by (by rewrite Hreg).
    assert (Herase : erase_feature feature (features g) ≡ₚ L ++ R).
    { apply erase_feature_Permutation; [done|]. by rewrite Hreg. }
    assert (Hlen : length (erase_feature feature (features g)) <= length (features g)).
    { rewrite erase_feature_scan. apply erase_scan_length. }
    split; cbn [ended threads globals features trace].
    + by rewrite (pending_insert pcs t _ Hpc).
    + by rewrite (pending_insert pcs t _ Hpc).
    + lia.
    + done.
    + rewrite (pending_insert pcs t _ Hpc), (zeros_insert pcs t _ Hpc).
      cbn [pending_of zero_of app].
      rewrite int_of_size_t_small by lia.
      rewrite (Permutation_length Herase).
      change (pending (take t pcs)) with L.
      change (pending (drop (S t) pcs)) with R.
      assert (Hbefore : match L ++ [feature] ++ R with [] => 1 | _ :: _ => 0 end = 0)
        by (by destruct L).
      rewrite Hbefore in Hcount.
      destruct (L ++ R) as [|x rest].
      * change (0 =? Z.of_nat (length []))%Z with true. cbv iota. lia.
      * destruct (Z.eqb_spec 0 (Z.of_nat (length (x :: rest)))) as [Heq|_];
          [cbn [length] in Heq|]; lia.
  - (* the test of size *)
    pose proof (stopped_unlocked_features size g) as Hfeatures.
    pose proof (stopped_unlocked_calls size g) as Hcalls.
    pose proof (thread_step_AtCheck size g) as Hstep.
    destruct (stopped_unlocked size g) as [[] g'|k g'] eqn:Hrun;
      cbn [final] in *.
    + rewrite (schedule_step_Returns t g pcs _ _ _ Hpc Hstep).
      split; cbn [ended threads globals];
        rewrite ?(pending_insert pcs t _ Hpc), ?(zeros_insert pcs t _ Hpc),
          ?Hfeatures; cbn [pending_of zero_of] in *; try done; lia.
    + rewrite (schedule_step_Terminated t g pcs _ _ _ Hpc Hstep).
      apply stopped_unlocked_Terminated in Hrun.
      split; cbn [ended threads globals];
        rewrite ?(pending_at pcs t _ Hpc), ?Hfeatures; try done; [lia|].
      destruct (pending (take t pcs) ++ pending_of (AtCheck size) ++
                pending (drop (S t) pcs)); lia.
  - (* already returned *)
    rewrite (schedule_step_Returns t g pcs _ _ _ Hpc eq_refl).
    rewrite list_insert_id by done.
    split; cbn [ended threads globals];
      rewrite ?(pending_at pcs t _ Hpc), ?(zeros_at pcs t _ Hpc); done.
Qed.

Lemma run_app schedule more : forall s,
  run (schedule ++ more) s = run more (run schedule s).
Proof. induction schedule as [|t schedule IH]; intros s; [done|]. apply IH. Qed.

Lemma run_Inv calls0 schedule : forall s,
  Inv calls0 s -> Inv calls0 (run schedule s).
Proof.
  induction schedule as [|t schedule IH]; intros s HI; [done|].
  cbn. apply IH. by apply schedule_step_Inv.
Qed.

Lemma finished_calls calls0 s :
  Inv calls0 s -> finished s ->
  shutdown_calls (trace (globals s)) = S calls0.
Proof.
  intros [_ _ _ _ Hcount] [Hended|Hall].
  - by destruct (ended s).
  - destruct (ended s); [done|].
    apply all_returned_pending in Hall as [Hp Hz].
    rewrite Hp, Hz in Hcount. lia.
Qed.

Lemma at_most_once calls0 s :
  Inv calls0 s -> shutdown_calls (trace (globals s)) <= S calls0.
Proof.
  intros [_ _ _ _ Hcount]. destruct (ended s); [lia|].
  destruct (pending (threads s)); lia.
Qed.

Lemma pending_AtOnEvent order : pending (map AtOnEvent order) = order.
Proof.
  unfold pending. induction order as [|f order IH]; [done|].
  cbn. by rewrite IH.
Qed.

Lemma zeros_AtOnEvent order : zeros (map AtOnEvent order) = 0.
Proof. induction order as [|f order IH]; [done|]. done. Qed.

Lemma Inv_start g order :
  NoDup (features g) -> features g <> [] ->
  (Z.of_nat (length (features g)) <= INT_MAX)%Z ->
  order ≡ₚ features g ->
  Inv (shutdown_calls (trace g)) (mkSystem g None (map AtOnEvent order)).
Proof.
  intros Hnd Hne Hbound Hperm.
  split; cbn [ended threads globals];
    rewrite ?pending_AtOnEvent, ?zeros_AtOnEvent; try done.
  - by rewrite Hperm.
  - destruct order as [|f order]; [|lia].
    symmetry in Hperm. by apply Permutation_nil_r in Hperm.
Qed.

(** ** Concurrent deliveries: every run can be brought to its end *)

Lemma thread_step_remaining pc g pc' g' :
  thread_step pc g = Returns pc' g' -> remaining pc' = pred (remaining pc).
Proof.
  destruct pc as [feature|feature|size|].
  - intros [= <- _]. done.
  - rewrite thread_step_AtLock. intros [= <- _]. done.
  - rewrite thread_step_AtCheck.
    destruct (stopped_unlocked size g); [intros [= <- _]; done | discriminate].
  - intros [= <- _]. done.
Qed.

Lemma total_remaining_app pcs1 pcs2 :
  total_remaining (pcs1 ++ pcs2) = total_remaining pcs1 + total_remaining pcs2.
Proof. induction pcs1 as [|pc pcs1 IH]; cbn; [done|]. rewrite IH. lia. Qed.

Lemma total_remaining_insert pcs t pc pc' :
  pcs !! t = Some pc ->
  total_remaining (<[t := pc']> pcs) + remaining pc =
  total_remaining pcs + remaining pc'.
Proof.
  intros Hpc. rewrite insert_take_drop by (by eapply lookup_lt_Some).
  rewrite <- (take_drop_middle pcs t pc Hpc) at 3.
  rewrite !total_remaining_app. cbn. lia.
Qed.

Lemma total_remaining_zero pcs :
  total_remaining pcs = 0 -> Forall (fun pc => pc = Returned) pcs.
Proof.
  induction pcs as [|pc pcs IH]; cbn; intros Hzero; constructor.
  - destruct pc; cbn in Hzero; done || lia.
  - apply IH. lia.
Qed.

Lemma total_remaining_positive pcs :
  0 < total_remaining pcs ->
  exists t pc, pcs !! t = Some pc /\ 0 < remaining pc.
Proof.
  induction pcs as [|pc pcs IH]; cbn; intros Hpos; [lia|].
  destruct (Nat.eq_dec (remaining pc) 0) as [Hzero|Hmore].
  - destruct IH as (t & pc' & Hpc' & Hrem); [lia|].
    exists (S t), pc'. done.
  - exists 0, pc. split; [done | lia].
Qed.

(** No thread ever waits for another: from any state some schedule lets
    every delivery return, or ends the process. *)
Lemma some_schedule_finishes n : forall s,
  total_remaining (threads s) <= n ->
  exists schedule, finished (run schedule s).
Proof.
  induction n as [|n IH]; intros s Hn.
  - exists []. right. apply total_remaining_zero. cbn. lia.
  - destruct s as [g e pcs]. cbn [threads] in Hn.
    destruct e as [k|]; [by exists []; left|].
    destruct (Nat.eq_dec (total_remaining pcs) 0) as [Hzero|Hmore].
    { exists []. right. by apply total_remaining_zero. }
    destruct (total_remaining_positive pcs) as (t & pc & Hpc & Hrem); [lia|].
    destruct (thread_step pc g) as [pc' g'|k g'] eqn:Hstep.
    + destruct (IH (mkSystem g' None (<[t := pc']> pcs))) as [schedule Hdone].
      { cbn [threads].
        pose proof (total_remaining_insert pcs t pc pc' Hpc) as Htotal.
        apply thread_step_remaining in Hstep. lia. }
      exists (t :: schedule). cbn [run].
      by rewrite (schedule_step_Returns t g pcs pc pc' g' Hpc Hstep).
    + exists [t]. cbn [run].
      rewrite (schedule_step_Terminated t g pcs pc k g' Hpc Hstep).
      by left.
Qed.

(** C1. The registry holds [N >= 1] distinct handles and a [STOPPED] event
    is delivered for each of them, each delivery in a thread of its own,
    the threads interleaved by an arbitrary schedule.  At every moment the
    registry holds exactly the handles whose delivery has not yet been
    through the locked section; [shutdown()] has been entered at most once;
    when every delivery has returned (or the process has exited), it has
    been entered exactly once; and the schedule can always be continued to
    that point. *)
Theorem all_stopped_shutdown_once
    (g : Globals) (order : list Feature) (schedule : list nat) :
  NoDup (features g) ->
  features g <> [] ->
  (Z.of_nat (length (features g)) <= INT_MAX)%Z ->
  order ≡ₚ features g ->
  let s := run schedule (mkSystem g None (map AtOnEvent order)) in
  features (globals s) ≡ₚ pending (threads s) /\
  shutdown_calls (trace (globals s)) <= S (shutdown_calls (trace g)) /\
  (finished s -> shutdown_calls (trace (globals s)) = S (shutdown_calls (trace g))) /\
  exists more, finished (run more s).
Proof.
  intros Hnd Hne Hbound Hperm s.
  assert (HI : Inv (shutdown_calls (trace g)) s)
    by (by apply run_Inv, Inv_start).
  split; [apply HI|]. split; [|split].
  - by apply at_most_once.
  - by apply finished_calls.
  - by apply (some_schedule_finishes (total_remaining (threads s))).
Qed.

Lemma all_stopped_shutdown_once_witness :
  NoDup (features two_registered) /\
  features two_registered <> [] /\
  (Z.of_nat (length (features two_registered)) <= INT_MAX)%Z /\
  [8; 4] ≡ₚ features two_registered /\
  let s := run [0; 1; 1; 0; 0; 1]
             (mkSystem two_registered None (map AtOnEvent [8; 4])) in
  finished s /\
  features (globals s) ≡ₚ pending (threads s) /\
  shutdown_calls (trace (globals s)) <= S (shutdown_calls (trace two_registered)) /\
  shutdown_calls (trace (globals s)) = S (shutdown_calls (trace two_registered)).
Proof.
  assert (Hnd : NoDup (features two_registered)).
  { cbn. apply NoDup_cons. split; [|apply NoDup_singleton].
    intros Hin. apply list_elem_of_singleton in Hin. discriminate. }
  assert (Hne : features two_registered <> []) by discriminate.
  assert (Hbound : (Z.of_nat (length (features two_registered)) <= INT_MAX)%Z)
    by (cbn; unfold INT_MAX; lia).
  assert (Hperm : [8; 4] ≡ₚ features two_registered) by apply perm_swap.
  repeat (split; [assumption|]).
  destruct (all_stopped_shutdown_once two_registered [8; 4]
              [0; 1; 1; 0; 0; 1] Hnd Hne Hbound Hperm)
    as (Hregistry & Hmost & Honce & _).
  assert (Hfinished : finished (run [0; 1; 1; 0; 0; 1]
            (mkSystem two_registered None (map AtOnEvent [8; 4]))))
    by (right; repeat constructor).
  exact (conj Hfinished (conj Hregistry (conj Hmost (Honce Hfinished)))).
Defined.

(** The schedule of the witness, step by step: thread 1 (handle 4) takes
    the lock first and reads size 1, thread 0 (handle 8) reads size 0 and
    is the one that enters [shutdown()]. *)
Example two_threads_interleaved :
  run [0; 1; 1; 0; 0; 1]
      (mkSystem two_registered None (map AtOnEvent [8; 4])) =
  mkSystem
    (mkGlobals [] true
       [Log INFO "%s has stopped" [NameOf 8];
        Log INFO "%s has stopped" [NameOf 4];
        Log INFO "All features have stopped" [];
        EnterShutdown; LoggerShutdown])
    None [Returned; Returned].
Proof. reflexivity. Qed.

(** ** Deliveries one after the other *)

Lemma bind_unit_id (m : Proc unit) g : (m;; mret tt) g = m g.
Proof. proc_run. by destruct (m g) as [[] ?|? ?]. Qed.

(** The last delivery finds the registry empty and enters [shutdown()];
    none before it does. *)
Lemma deliver_stopped_all order : forall g,
  NoDup (features g) -> features g <> [] ->
  (Z.of_nat (length (features g)) <= INT_MAX)%Z ->
  order ≡ₚ features g ->
  deliver_stopped order g =
  shutdown (mkGlobals [] (attemptingShutdown g)
              (trace g ++ map stopped_log order ++
               [Log INFO "All features have stopped" []])).
Proof.
  induction order as [|f rest IH]; intros g Hnd Hne Hbound Hperm.
  { symmetry in Hperm. by apply Permutation_nil_r in Hperm. }
  assert (Herase : erase_feature f (features g) ≡ₚ rest)
    by (by apply erase_feature_Permutation).
  assert (Hlen : length (erase_feature f (features g)) <= length (features g))
    by (rewrite erase_feature_scan; apply erase_scan_length).
  unfold deliver_stopped. cbn [for_each].
  change (onEvent f FEATURE_STOPPED) with
    (log INFO "%s has stopped" [NameOf f];; handle_feature_stopped f).
  unfold mbind at 1. unfold Proc_bind, bind.
  unfold mbind at 1. unfold Proc_bind, bind, log, emit.
  rewrite handle_feature_stopped_eq. cbn [features attemptingShutdown trace].
  rewrite int_of_size_t_small by lia.
  destruct rest as [|f' rest'].
  - apply Permutation_nil_r in Herase. rewrite Herase.
    cbn [length Z.of_nat for_each]. rewrite stopped_unlocked_zero.
    unfold with_trace. cbn [features attemptingShutdown trace map app].
    rewrite <- app_assoc. cbn [app].
    by destruct (shutdown _) as [[] ?|? ?].
  - rewrite stopped_unlocked_nonzero
      by (rewrite (Permutation_length Herase); cbn [length]; lia).
    fold (deliver_stopped (f' :: rest')). rewrite IH; cbn [features]; try done.
    + cbn [attemptingShutdown trace map]. by rewrite <- app_assoc.
    + rewrite Herase. rewrite <- Hperm in Hnd. by apply NoDup_cons in Hnd as [_ ?].
    + intros Hnil. rewrite Hnil in Herase. by apply Permutation_nil_cons in Herase.
    + lia.
Qed.

Lemma stops_stopped_log order : stops (map stopped_log order) = [].
Proof. induction order as [|f order IH]; [done | exact IH]. Qed.

(** An interrupt and then the [STOPPED] reports of all features: the first
    [shutdown()] stops them, the one entered from the last report exits
    with status 0.  This is the clean way out of the process. *)
Lemma interrupt_then_all_stopped g order :
  attemptingShutdown g = false ->
  NoDup (features g) -> features g <> [] ->
  (Z.of_nat (length (features g)) <= INT_MAX)%Z ->
  order ≡ₚ features g ->
  termination ((on_signal SIGINT;; deliver_stopped order) g) = Some (Exit 0) /\
  stops (trace (final ((on_signal SIGINT;; deliver_stopped order) g))) =
    stops (trace g) ++ features g.
Proof.
  intros Hflag Hnd Hne Hbound Hperm.
  unfold on_signal. proc_run. rewrite shutdown_first by done.
  rewrite deliver_stopped_all by done. rewrite shutdown_again by done.
  cbn. split; [done|].
  rewrite !stops_app. cbn. fold (stop_effects (features g)).
  rewrite !stops_app, stops_stop_effects, stops_stopped_log. cbn.
  by rewrite !app_nil_r.
Qed.

(** [main] with both features enabled, one [SIGINT], and the two reports. *)
Example main_clean_shutdown :
  (main (mkStartup true true true true true 4 8) [SIGINT];; deliver_stopped [8; 4]) initial =
  Terminated (Exit 0)
    (mkGlobals [] true
       [FeatureInit 4; FeatureInit 8; FeatureStart 4; FeatureStart 8;
        Log INFO "Received signal: (%d)" [Number 2];
        Disconnect;
        EnterShutdown;
        Log DEBUG "Attempting shutdown of %s" [NameOf 4]; FeatureStop 4;
        Log DEBUG "Attempting shutdown of %s" [NameOf 8]; FeatureStop 8;
        LoggerShutdown;
        Log INFO "%s has stopped" [NameOf 8];
        Log INFO "%s has stopped" [NameOf 4];
        Log INFO "All features have stopped" [];
        EnterShutdown; LoggerShutdown]).
Proof. reflexivity. Qed.

(** A second [SIGINT] while the features are still stopping exits too. *)
Example main_second_interrupt :
  main (mkStartup true true true true false 4 8) [SIGINT; SIGINT] initial =
  Terminated (Exit 0)
    (mkGlobals [4] true
       [FeatureInit 4; FeatureStart 4;
        Log INFO "Received signal: (%d)" [Number 2];
        Disconnect;
        EnterShutdown;
        Log DEBUG "Attempting shutdown of %s" [NameOf 4]; FeatureStop 4;
        LoggerShutdown;
        Log INFO "Received signal: (%d)" [Number 2];
        Disconnect;
        EnterShutdown; LoggerShutdown]).
Proof. reflexivity. Qed.

(** * Further properties of [main.cpp] *)

(** ** The erase loop on any vector *)

Lemma erase_scan_single feature : erase_scan feature [feature] = [].
Proof. cbn. by rewrite Nat.eqb_refl. Qed.

Lemma erase_scan_hit feature y t :
  erase_scan feature (feature :: y :: t) = y :: erase_scan feature t.
Proof. cbn. by rewrite Nat.eqb_refl. Qed.

Lemma erase_scan_miss feature x t :
  x <> feature -> erase_scan feature (x :: t) = x :: erase_scan feature t.
Proof. intros Hne. cbn. by destruct (Nat.eqb_spec x feature). Qed.

(** Induction along the scan: after a match the scan resumes two
    positions further. *)
Lemma erase_scan_ind feature (P : list nat -> Prop) :
  P [] ->
  P [feature] ->
  (forall y t, P t -> P (feature :: y :: t)) ->
  (forall x t, x <> feature -> P t -> P (x :: t)) ->
  forall l, P l.
Proof.
  intros Hnil Hsingle Hhit Hmiss.
  assert (Hboth : forall l, P l /\ forall x, P (x :: l)).
  { induction l as [|y t [IH1 IH2]].
    - split; [done|]. intros x.
      destruct (decide (x = feature)) as [->|Hne]; [done | by apply Hmiss].
    - split; [apply IH2|]. intros x.
      destruct (decide (x = feature)) as [->|Hne]; [by apply Hhit|].
      apply Hmiss; [done | apply IH2]. }
  intros l. apply Hboth.
Qed.

Lemma adjacent_copies_nil feature : ~ adjacent_copies feature [].
Proof. by intros (i & Hi & _). Qed.

Lemma adjacent_copies_cons feature x t :
  adjacent_copies feature (x :: t) <->
  (x = feature /\ t !! 0 = Some feature) \/ adjacent_copies feature t.
Proof.
  split.
  - intros ([|i] & Hi & HSi).
    + left. split; [by injection Hi | exact HSi].
    + right. by exists i.
  - intros [[-> Hhead]|(i & Hi & HSi)].
    + by exists 0.
    + by exists (S i).
Qed.

(** X1. When the handle nowhere sits at two consecutive positions, the
    loop of [handle_feature_stopped] erases every copy of it and keeps the
    other handles in their order. *)
Theorem erase_without_adjacent_copies (feature : Feature) (l : list Feature) :
  ~ adjacent_copies feature l ->
  erase_feature feature l = filter (fun x => x <> feature) l.
Proof.
  rewrite erase_feature_scan. revert l.
  apply (erase_scan_ind feature
           (fun l => ~ adjacent_copies feature l ->
                     erase_scan feature l = filter (fun x => x <> feature) l)).
  - done.
  - intros _. rewrite erase_scan_single. by rewrite filter_cons_False by tauto.
  - intros y t IH Hnone. rewrite erase_scan_hit.
    rewrite filter_cons_False by tauto.
    assert (Hy : y <> feature).
    { intros ->. apply Hnone. apply adjacent_copies_cons. by left. }
    rewrite filter_cons_True by done. rewrite IH; [done|].
    intros Hadj. apply Hnone.
    apply adjacent_copies_cons. right. apply adjacent_copies_cons. by right.
  - intros x t Hne IH Hnone. rewrite erase_scan_miss by done.
    rewrite filter_cons_True by done. rewrite IH; [done|].
    intros Hadj. apply Hnone. apply adjacent_copies_cons. by right.
Qed.

Lemma erase_without_adjacent_copies_witness :
  ~ adjacent_copies 7 [7; 3; 7; 5] /\
  erase_feature 7 [7; 3; 7; 5] = filter (fun x => x <> 7) [7; 3; 7; 5].
Proof.
  assert (Hnone : ~ adjacent_copies 7 [7; 3; 7; 5]).
  { intros (i & Hi & HSi).
    destruct i as [|[|[|[|i]]]]; cbn in Hi, HSi; discriminate. }
  exact (conj Hnone (erase_without_adjacent_copies 7 [7; 3; 7; 5] Hnone)).
Defined.

(** X2. After the loop the handle is still in the vector exactly when it
    sat at two consecutive positions before: the element behind an erased
    one is never compared. *)
Theorem handle_survives_iff_adjacent (feature : Feature) (l : list Feature) :
  feature ∈ erase_feature feature l <-> adjacent_copies feature l.
Proof.
  rewrite erase_feature_scan. revert l.
  apply (erase_scan_ind feature
           (fun l => feature ∈ erase_scan feature l <-> adjacent_copies feature l)).
  - split; [by intros ?%elem_of_nil | by intros ?%adjacent_copies_nil].
  - rewrite erase_scan_single. split; [by intros ?%elem_of_nil|].
    intros [[_ Hhead]|Hadj]%adjacent_copies_cons; [done|].
    by apply adjacent_copies_nil in Hadj.
  - intros y t IH. rewrite erase_scan_hit, elem_of_cons, IH.
    rewrite (adjacent_copies_cons feature feature (y :: t)).
    rewrite (adjacent_copies_cons feature y t). cbn. split.
    + intros [->|Hadj]; [by left | by right; right].
    + intros [[_ [= ->]]|[[-> _]|Hadj]]; [by left | by left | by right].
  - intros x t Hne IH. rewrite erase_scan_miss by done.
    rewrite elem_of_cons, IH, adjacent_copies_cons. split.
    + intros [->|Hadj]; [done | by right].
    + intros [[-> _]|Hadj]; [done | by right].
Qed.

Lemma erase_feature_sandwich (feature : Feature) (l : list Feature) :
  filter (fun x => x <> feature) l `sublist_of` erase_feature feature l /\
  erase_feature feature l `sublist_of` l.
Proof.
  rewrite erase_feature_scan. revert l.
  apply (erase_scan_ind feature
           (fun l => filter (fun x => x <> feature) l `sublist_of` erase_scan feature l /\
                     erase_scan feature l `sublist_of` l)).
  - done.
  - rewrite erase_scan_single. rewrite filter_cons_False by tauto.
    split; [done | apply sublist_nil_l].
  - intros y t [IH1 IH2]. rewrite erase_scan_hit.
    rewrite filter_cons_False by tauto. split.
    + destruct (decide (y = feature)) as [->|Hne].
      * rewrite filter_cons_False by tauto. by apply sublist_cons.
      * rewrite filter_cons_True by done. by apply sublist_skip.
    + by apply sublist_cons, sublist_skip.
  - intros x t Hne [IH1 IH2]. rewrite erase_scan_miss by done.
    rewrite filter_cons_True by done. split; by apply sublist_skip.
Qed.

(** X3. Whatever the vector, the loop removes nothing but copies of the
    handle and moves nothing: the result lies between the vector without
    the handle and the vector itself. *)
Theorem erase_feature_between (feature : Feature) (l : list Feature) :
  filter (fun x => x <> feature) l `sublist_of` erase_feature feature l /\
  erase_feature feature l `sublist_of` l.
Proof. apply erase_feature_sandwich. Qed.

(** ** The notifier on every kind of notification *)

Lemma shutdown_termination g :
  termination (shutdown g) =
  if attemptingShutdown g then Some (Exit 0) else None.
Proof.
  destruct (attemptingShutdown g) eqn:Hflag.
  - by rewrite shutdown_again.
  - by rewrite shutdown_first.
Qed.

Lemma onEvent_stopped feature g :
  onEvent feature FEATURE_STOPPED g =
  handle_feature_stopped feature (with_trace g (trace g ++ [stopped_log feature])).
Proof. reflexivity. Qed.

Lemma stopped_unlocked_termination size g :
  termination (stopped_unlocked size g) = None \/
  (termination (stopped_unlocked size g) = Some (Exit 0) /\
   attemptingShutdown g = true).
Proof.
  destruct (Z.eq_dec size 0%Z) as [->|Hne].
  - rewrite stopped_unlocked_zero, shutdown_termination. cbn.
    destruct (attemptingShutdown g); [by right | by left].
  - rewrite stopped_unlocked_nonzero by done. by left.
Qed.

(** X4. Whatever the kind of error, known or not, [onError] first logs at
    ERROR level and touches neither the registry nor the shutdown flag; it
    calls no [stop()] and does not enter [shutdown()].  Whether the process
    survives is decided by the build alone: a debug build aborts, a release
    build returns. *)
Theorem onError_any_kind
    (build : Build) (feature : Feature) (error : ClientBaseErrorNotification)
    (msg : string) (g : Globals) :
  let o := onError build feature error msg g in
  (exists fmt args rest, trace (final o) = trace g ++ Log ERROR fmt args :: rest) /\
  features (final o) = features g /\
  attemptingShutdown (final o) = attemptingShutdown g /\
  stops (trace (final o)) = stops (trace g) /\
  shutdown_calls (trace (final o)) = shutdown_calls (trace g) /\
  termination o = match build with
                  | DebugBuild => Some Abort
                  | ReleaseBuild => None
                  end.
Proof.
  destruct build, error; unfold onError, onError_default; proc_run;
    rewrite <- ?app_assoc; cbn [app];
    (split; [by eexists _, _, _|]);
    rewrite ?stops_app, ?shutdown_calls_app; cbn;
    rewrite ?app_nil_r, ?Nat.add_0_r; done.
Qed.

(** X5. [onEvent] removes no handle but the one it is called for and adds
    none; it can end the process only through [exit(0)], and only when
    [attemptingShutdown] was already set.  For every notification other
    than [FEATURE_STOPPED] it returns with registry and flag as they were
    and without entering [shutdown()]. *)
Theorem onEvent_frame
    (feature : Feature) (notification : ClientBaseEventNotification) (g : Globals) :
  let o := onEvent feature notification g in
  filter (fun x => x <> feature) (features g) `sublist_of` features (final o) /\
  features (final o) `sublist_of` features g /\
  (termination o = None \/
   (termination o = Some (Exit 0) /\ attemptingShutdown g = true)) /\
  (notification = FEATURE_STOPPED \/
   (features (final o) = features g /\
    attemptingShutdown (final o) = attemptingShutdown g /\
    termination o = None /\
    shutdown_calls (trace (final o)) = shutdown_calls (trace g))).
Proof.
  destruct notification as [| |n]; cbv zeta.
  - cbn. split; [apply sublist_filter|]. split; [done|]. split; [by left|].
    right. rewrite shutdown_calls_app. cbn. repeat split; lia.
  - rewrite onEvent_stopped, handle_feature_stopped_eq.
    rewrite stopped_unlocked_features. cbn [features attemptingShutdown with_trace].
    split; [apply erase_feature_sandwich|].
    split; [apply erase_feature_sandwich|].
    split; [|by left].
    apply (stopped_unlocked_termination _
             (mkGlobals (erase_feature feature (features g)) (attemptingShutdown g)
                        (trace g ++ [stopped_log feature]))).
  - cbn. split; [apply sublist_filter|]. split; [done|]. split; [by left|].
    right. rewrite shutdown_calls_app. cbn. repeat split; lia.
Qed.

(** ** [main]: startup and the signal loop *)


Lemma on_signal_SIGINT g :
  on_signal SIGINT g =
  shutdown (with_trace g (trace g ++ [signal_log SIGINT; Disconnect])).
Proof.
  unfold on_signal. proc_run. by rewrite <- app_assoc.
Qed.

Lemma on_signal_other received_signal g :
  received_signal <> SIGINT ->
  on_signal received_signal g =
  Returns tt (with_trace g (trace g ++ [signal_log received_signal])).
Proof.
  intros Hne. unfold on_signal, mbind, Proc_bind, bind, log, emit.
  destruct (Z.eqb_spec SIGINT received_signal); [congruence | done].
Qed.

Lemma quiet_signals signals : forall g,
  SIGINT ∉ signals ->
  for_each signals on_signal g =
  Returns tt (with_trace g (trace g ++ map signal_log signals)).
Proof.
  induction signals as [|z signals IH]; intros g Hquiet.
  - cbn. unfold with_trace. rewrite app_nil_r. by destruct g.
  - apply not_elem_of_cons in Hquiet as [Hz Hrest].
    cbn [for_each]. unfold mbind, Proc_bind, bind.
    rewrite on_signal_other by congruence. rewrite IH by done.
    unfold with_trace. cbn. by rewrite <- app_assoc.
Qed.

Lemma main_startup_ok s :
  parse_cli_ok s = true -> config_init_ok s = true -> initialize_ok s = true ->
  main_startup s initial =
  Returns tt (mkGlobals (registered s) false
                (map FeatureInit (registered s) ++ map FeatureStart (registered s))).
Proof.
  intros Hparse Hinit Hcrt. unfold main_startup, registered.
  rewrite Hparse, Hinit, Hcrt. cbn [negb orb].
  by destruct (jobs_enabled s), (tunneling_enabled s).
Qed.

(** X7. When the configuration loads and the resource manager
    initialises, [main] reaches its signal loop with exactly the enabled
    features registered, jobs before tunneling; each was initialised
    before any was started, and they were started in registration order.
    A feature that is not enabled is neither initialised nor started. *)
Theorem startup_registers_then_starts (s : Startup) :
  parse_cli_ok s = true -> config_init_ok s = true -> initialize_ok s = true ->
  main_startup s initial =
  Returns tt (mkGlobals (registered s) false
                (map FeatureInit (registered s) ++ map FeatureStart (registered s))).
Proof. apply main_startup_ok. Qed.

Lemma startup_registers_then_starts_witness :
  let s := mkStartup true true true false true 4 8 in
  parse_cli_ok s = true /\ config_init_ok s = true /\ initialize_ok s = true /\
  main_startup s initial =
  Returns tt (mkGlobals (registered s) false
                (map FeatureInit (registered s) ++ map FeatureStart (registered s))).
Proof.
  repeat (split; [reflexivity|]).
  apply startup_registers_then_starts; reflexivity.
Defined.

(** X8. When the resource manager fails to initialise, [main] logs the
    fatal error, shuts the logger down and aborts: no feature is
    initialised, registered or started, and no signal is waited for,
    whatever the configuration enables. *)
Theorem initialize_failure_registers_nothing (s : Startup) (signals : list Z) :
  parse_cli_ok s = true -> config_init_ok s = true -> initialize_ok s = false ->
  main s signals initial =
  Terminated Abort
    (mkGlobals [] false
       [Log ERROR "*** AWS IOT DEVICE CLIENT FATAL ERROR: Failed to initialize the MQTT Client. Please verify your AWS IoT credentials and/or configuration. ***" [];
        LoggerShutdown]).
Proof.
  intros Hparse Hinit Hcrt. unfold main, main_startup.
  unfold mbind at 1. unfold Proc_bind, bind.
  by rewrite Hparse, Hinit, Hcrt.
Qed.

Lemma initialize_failure_registers_nothing_witness :
  let s := mkStartup true true false true true 4 8 in
  parse_cli_ok s = true /\ config_init_ok s = true /\ initialize_ok s = false /\
  main s [SIGINT] initial =
  Terminated Abort
    (mkGlobals [] false
       [Log ERROR "*** AWS IOT DEVICE CLIENT FATAL ERROR: Failed to initialize the MQTT Client. Please verify your AWS IoT credentials and/or configuration. ***" [];
        LoggerShutdown]).
Proof.
  repeat (split; [reflexivity|]).
  apply initialize_failure_registers_nothing; reflexivity.
Defined.

Lemma main_after_startup s signals :
  parse_cli_ok s = true -> config_init_ok s = true -> initialize_ok s = true ->
  main s signals initial =
  for_each signals on_signal
    (mkGlobals (registered s) false
       (map FeatureInit (registered s) ++ map FeatureStart (registered s))).
Proof.
  intros Hparse Hinit Hcrt. unfold main.
  unfold mbind at 1. unfold Proc_bind, bind.
  by rewrite main_startup_ok.
Qed.

Lemma first_interrupt g quiet :
  attemptingShutdown g = false -> SIGINT ∉ quiet ->
  for_each (SIGINT :: quiet) on_signal g =
  Returns tt
    (mkGlobals (features g) true
       (trace g ++ [signal_log SIGINT; Disconnect] ++
        EnterShutdown :: stop_effects (features g) ++
        LoggerShutdown :: map signal_log quiet)).
Proof.
  intros Hflag Hquiet. cbn [for_each]. unfold mbind, Proc_bind, bind.
  rewrite on_signal_SIGINT. rewrite shutdown_first by done.
  rewrite quiet_signals by done. unfold with_trace.
  cbn [features attemptingShutdown trace].
  do 2 f_equal. by repeat (rewrite <- ?app_assoc; cbn [app]).
Qed.


Lemma stops_inits fs : stops (map FeatureInit fs) = [].
Proof. induction fs as [|f fs IH]; [done | exact IH]. Qed.

Lemma stops_starts fs : stops (map FeatureStart fs) = [].
Proof. induction fs as [|f fs IH]; [done | exact IH]. Qed.

Lemma stops_signal_logs signals : stops (map signal_log signals) = [].
Proof. induction signals as [|z signals IH]; [done | exact IH]. Qed.

Ltac stops_simpl :=
  repeat first
    [ rewrite stops_app | rewrite stops_stop_effects | rewrite stops_inits
    | rewrite stops_starts | rewrite stops_signal_logs
    | progress cbn [stops app signal_log] ];
  rewrite ?app_nil_r.



Lemma registered_length s : length (registered s) <= 2.
Proof.
  unfold registered. destruct (jobs_enabled s), (tunneling_enabled s); cbn; lia.
Qed.

Lemma shutdown_calls_inits fs : shutdown_calls (map FeatureInit fs) = 0.
Proof. induction fs as [|f fs IH]; [done | exact IH]. Qed.

Lemma shutdown_calls_starts fs : shutdown_calls (map FeatureStart fs) = 0.
Proof. induction fs as [|f fs IH]; [done | exact IH]. Qed.

Lemma shutdown_calls_signal_logs signals :
  shutdown_calls (map signal_log signals) = 0.
Proof. induction signals as [|z signals IH]; [done | exact IH]. Qed.

Lemma shutdown_calls_stopped_logs order :
  shutdown_calls (map stopped_log order) = 0.
Proof. induction order as [|f order IH]; [done | exact IH]. Qed.

Ltac calls_simpl :=
  repeat first
    [ rewrite shutdown_calls_app | rewrite shutdown_calls_stop_effects
    | rewrite shutdown_calls_inits | rewrite shutdown_calls_starts
    | rewrite shutdown_calls_signal_logs | rewrite shutdown_calls_stopped_logs
    | progress cbn [shutdown_calls app signal_log stopped_log] ].

(** X10. The clean way out.  After a successful startup with at least one
    feature, a [SIGINT] followed, in any order, by the [FEATURE_STOPPED]
    reports of all registered features ends the process with status 0:
    [stop()] has been called exactly once on each feature, in registration
    order, the registry is empty, and [shutdown()] has been entered
    twice, once from the signal and once from the last report. *)
Theorem clean_shutdown (s : Startup) (quiet : list Z) (order : list Feature) :
  parse_cli_ok s = true -> config_init_ok s = true -> initialize_ok s = true ->
  SIGINT ∉ quiet ->
  NoDup (registered s) -> registered s <> [] -> order ≡ₚ registered s ->
  let o := (main s (SIGINT :: quiet);; deliver_stopped order) initial in
  termination o = Some (Exit 0) /\
  features (final o) = [] /\
  stops (trace (final o)) = registered s /\
  shutdown_calls (trace (final o)) = 2.
Proof.
  intros Hparse Hinit Hcrt Hquiet Hnd Hne Hperm. cbv zeta.
  pose proof (registered_length s) as Hlen.
  assert (Hrun : (main s (SIGINT :: quiet);; deliver_stopped order) initial =
                 shutdown
                   (mkGlobals [] true
                      (((map FeatureInit (registered s) ++
                         map FeatureStart (registered s)) ++
                        [signal_log SIGINT; Disconnect] ++
                        EnterShutdown :: stop_effects (registered s) ++
                        LoggerShutdown :: map signal_log quiet) ++
                       map stopped_log order ++
                       [Log INFO "All features have stopped" []]))).
  { unfold mbind, Proc_bind, bind.
    rewrite main_after_startup by done. rewrite first_interrupt by done.
    rewrite deliver_stopped_all; cbn [features attemptingShutdown trace];
      [done | done | done | unfold INT_MAX; lia | done]. }
  rewrite Hrun. rewrite shutdown_again by done.
  cbn [final termination with_trace features attemptingShutdown trace].
  repeat split.
  - stops_simpl. by rewrite stops_stopped_log, !app_nil_r.
  - by calls_simpl.
Qed.

Lemma clean_shutdown_witness :
  let s := mkStartup true true true true true 4 8 in
  parse_cli_ok s = true /\ config_init_ok s = true /\ initialize_ok s = true /\
  (SIGINT ∉ @nil Z) /\
  NoDup (registered s) /\ registered s <> [] /\ [8; 4] ≡ₚ registered s /\
  let o := (main s [SIGINT];; deliver_stopped [8; 4]) initial in
  termination o = Some (Exit 0) /\
  features (final o) = [] /\
  stops (trace (final o)) = registered s /\
  shutdown_calls (trace (final o)) = 2.
Proof.
  assert (Hquiet : SIGINT ∉ @nil Z) by apply not_elem_of_nil.
  assert (Hnd : NoDup (registered (mkStartup true true true true true 4 8))).
  { cbn. apply NoDup_cons. split; [|apply NoDup_singleton].
    intros Hin. apply list_elem_of_singleton in Hin. discriminate. }
  assert (Hne : registered (mkStartup true true true true true 4 8) <> [])
    by discriminate.
  assert (Hperm : [8; 4] ≡ₚ registered (mkStartup true true true true true 4 8))
    by apply perm_swap.
  repeat (split; [reflexivity|]).
  split; [exact Hquiet|]. split; [exact Hnd|]. split; [exact Hne|].
  split; [exact Hperm|].
  exact (clean_shutdown (mkStartup true true true true true 4 8) [] [8; 4]
           eq_refl eq_refl eq_refl Hquiet Hnd Hne Hperm).
Defined.

(** ** Any sequence of notifications and signals *)

Lemma Later_refl g : Later g g.
Proof.
  split; [done | done | done |]. exists []. rewrite app_nil_r.
  repeat split; try done; [apply sublist_nil_l | congruence | congruence].
Qed.

Lemma Later_trans g g1 g2 : Later g g1 -> Later g1 g2 -> Later g g2.
Proof.
  intros [Hf1 Hflag1 Hc1 (e1 & Hs1 & He1 & Hclear1 & Hset1 & Hfirst1)]
         [Hf2 Hflag2 Hc2 (e2 & Hs2 & He2 & Hclear2 & Hset2 & Hfirst2)].
  split.
  - by etrans.
  - auto.
  - lia.
  - exists (e1 ++ e2). split; [by rewrite Hs2, Hs1, app_assoc|].
    destruct (decide (attemptingShutdown g1 = true)) as [Hg1|Hg1].
    + rewrite (Hset2 Hg1), app_nil_r.
      split; [done|]. split; [|split; [done|]].
      * intros Hg2. rewrite (Hflag2 Hg1) in Hg2. discriminate.
      * intros Hg Hg2. destruct (Hfirst1 Hg Hg1) as [Hsub Hcount].
        split; [by etrans | lia].
    + apply not_true_is_false in Hg1.
      rewrite (Hclear1 Hg1). cbn [app].
      split; [by etrans|]. split; [done|]. split.
      * intros Hg. rewrite (Hflag1 Hg) in Hg1. discriminate.
      * intros Hg Hg2. destruct (Hfirst2 Hg1 Hg2) as [Hsub Hcount].
        split; [done | lia].
Qed.

(** Effects other than [stop()] and entries into [shutdown()]. *)
Lemma Later_quiet g t :
  stops t = [] -> shutdown_calls t = 0 ->
  Later g (mkGlobals (features g) (attemptingShutdown g) (trace g ++ t)).
Proof.
  intros Hstops Hcalls. split; cbn [features attemptingShutdown trace].
  - done.
  - done.
  - rewrite shutdown_calls_app. lia.
  - exists []. rewrite stops_app, Hstops.
    repeat split; try done; [apply sublist_nil_l | congruence | congruence].
Qed.

Lemma Later_erase feature g :
  Later g (mkGlobals (erase_feature feature (features g))
                     (attemptingShutdown g) (trace g)).
Proof.
  split; cbn [features attemptingShutdown trace].
  - apply erase_feature_sandwich.
  - done.
  - done.
  - exists []. rewrite app_nil_r.
    repeat split; try done; [apply sublist_nil_l | congruence | congruence].
Qed.

Lemma Later_shutdown g : Later g (final (shutdown g)).
Proof.
  destruct (attemptingShutdown g) eqn:Hflag.
  - rewrite shutdown_again by done.
    split; cbn [final with_trace features attemptingShutdown trace].
    + done.
    + done.
    + calls_simpl. lia.
    + exists []. stops_simpl.
      repeat split; try done; [apply sublist_nil_l | congruence | congruence].
  - rewrite shutdown_first by done.
    split; cbn [final features attemptingShutdown trace].
    + done.
    + done.
    + calls_simpl. lia.
    + exists (features g). stops_simpl.
      split; [done|]. split; [done|]. split; [discriminate|].
      split; [congruence|]. intros _ _. split; [done|]. calls_simpl. lia.
Qed.

Lemma Later_stopped_unlocked size g : Later g (final (stopped_unlocked size g)).
Proof.
  destruct (Z.eq_dec size 0%Z) as [->|Hne].
  - rewrite stopped_unlocked_zero.
    eapply Later_trans; [|apply Later_shutdown].
    by apply (Later_quiet g [Log INFO "All features have stopped" []]).
  - rewrite stopped_unlocked_nonzero by done. apply Later_refl.
Qed.

Lemma Later_handle feature g : Later g (final (handle_feature_stopped feature g)).
Proof.
  rewrite handle_feature_stopped_eq.
  eapply Later_trans; [apply (Later_erase feature)|].
  apply Later_stopped_unlocked.
Qed.

Lemma Later_onEvent feature notification g :
  Later g (final (onEvent feature notification g)).
Proof.
  destruct notification as [| |n].
  - by apply (Later_quiet g [_]).
  - rewrite onEvent_stopped.
    eapply Later_trans; [|apply Later_handle].
    by apply (Later_quiet g [stopped_log feature]).
  - by apply (Later_quiet g [_]).
Qed.

Lemma Later_onError build feature error msg g :
  Later g (final (onError build feature error msg g)).
Proof.
  destruct build, error; unfold onError, onError_default; proc_run;
    rewrite <- ?app_assoc; cbn [app]; by apply Later_quiet.
Qed.

Lemma Later_on_signal received_signal g :
  Later g (final (on_signal received_signal g)).
Proof.
  destruct (Z.eq_dec received_signal SIGINT) as [->|Hne].
  - rewrite on_signal_SIGINT.
    eapply Later_trans; [|apply Later_shutdown].
    by apply (Later_quiet g [signal_log SIGINT; Disconnect]).
  - rewrite on_signal_other by done. by apply (Later_quiet g [_]).
Qed.

Lemma Later_perform build c g : Later g (final (perform build c g)).
Proof.
  destruct c; [apply Later_onEvent | apply Later_onError | apply Later_on_signal].
Qed.

Lemma perform_all_cons build c calls g :
  perform_all build (c :: calls) g =
  match perform build c g with
  | Returns _ g1 => perform_all build calls g1
  | Terminated t g1 => Terminated t g1
  end.
Proof. reflexivity. Qed.

Lemma Later_perform_all build calls : forall g,
  Later g (final (perform_all build calls g)).
Proof.
  induction calls as [|c calls IH]; intros g; [apply Later_refl|].
  rewrite perform_all_cons. pose proof (Later_perform build c g) as Hstep.
  destruct (perform build c g) as [[] g1|t g1]; cbn [final] in *; [|done].
  eapply Later_trans; [exact Hstep | apply IH].
Qed.

Lemma shutdown_Terminated g t g' :
  shutdown g = Terminated t g' -> ends_by_exit g t g'.
Proof.
  destruct (attemptingShutdown g) eqn:Hflag.
  - rewrite shutdown_again by done. intros [= <- <-].
    unfold ends_by_exit. cbn [with_trace attemptingShutdown trace].
    split; [done|]. split; [done|]. split; [done|]. calls_simpl. lia.
  - by rewrite shutdown_first.
Qed.

(** A call that only added quiet effects before it reached [shutdown()]. *)
Lemma ends_by_exit_after g fs t0 t g' :
  shutdown_calls t0 = 0 ->
  ends_by_exit (mkGlobals fs (attemptingShutdown g) (trace g ++ t0)) t g' ->
  ends_by_exit g t g'.
Proof.
  intros Hquiet (-> & Hflag & Hflag' & Hcalls).
  cbn [attemptingShutdown trace] in *.
  split; [done|]. split; [done|]. split; [done|].
  rewrite Hcalls, shutdown_calls_app. lia.
Qed.

Lemma stopped_unlocked_exit size g t g' :
  stopped_unlocked size g = Terminated t g' -> ends_by_exit g t g'.
Proof.
  destruct (Z.eq_dec size 0%Z) as [->|Hne].
  - rewrite stopped_unlocked_zero. intros Hrun%shutdown_Terminated.
    by apply (ends_by_exit_after g (features g)
                [Log INFO "All features have stopped" []]).
  - by rewrite stopped_unlocked_nonzero.
Qed.

Lemma perform_Terminated build c g t g' :
  perform build c g = Terminated t g' ->
  ends_by_exit g t g' \/
  (t = Abort /\ build = DebugBuild /\ is_error_call c = true).
Proof.
  destruct c as [feature notification|feature error msg|received_signal];
    cbn [perform]; intros Hrun.
  - left. destruct notification as [| |n]; [done| |done].
    rewrite onEvent_stopped, handle_feature_stopped_eq in Hrun.
    apply stopped_unlocked_exit in Hrun.
    by apply (ends_by_exit_after g (erase_feature feature (features g))
                [stopped_log feature]).
  - destruct build; [|by destruct error].
    right.
    assert (Ht : termination (onError DebugBuild feature error msg g) = Some Abort)
      by (by destruct error).
    rewrite Hrun in Ht. cbn in Ht. by injection Ht as ->.
  - left. destruct (Z.eq_dec received_signal SIGINT) as [->|Hne].
    + rewrite on_signal_SIGINT in Hrun. apply shutdown_Terminated in Hrun.
      by apply (ends_by_exit_after g (features g) [signal_log SIGINT; Disconnect]).
    + by rewrite on_signal_other in Hrun.
Qed.

Lemma perform_all_Terminated build calls : forall g t g',
  perform_all build calls g = Terminated t g' ->
  (t = Exit 0 /\ attemptingShutdown g' = true /\
   S (shutdown_calls (trace g)) <= shutdown_calls (trace g') /\
   (attemptingShutdown g = false ->
    shutdown_calls (trace g) + 2 <= shutdown_calls (trace g'))) \/
  (t = Abort /\ build = DebugBuild /\
   Exists (fun c => is_error_call c = true) calls).
Proof.
  induction calls as [|c calls IH]; intros g t g' Hrun; [done|].
  rewrite perform_all_cons in Hrun.
  pose proof (Later_perform build c g) as Hstep.
  destruct (perform build c g) as [[] g1|t1 g1] eqn:Hcall; cbn [final] in Hstep.
  - destruct (IH g1 t g' Hrun) as [(-> & Hflag' & Hcount & Hfresh)|(-> & -> & Herr)].
    + left. destruct Hstep as [_ _ Hcalls (e & _ & _ & _ & _ & Hfirst)].
      split; [done|]. split; [done|]. split; [lia|]. intros Hclear.
      destruct (attemptingShutdown g1) eqn:Hg1.
      * destruct (Hfirst Hclear eq_refl) as [_ Hone]. lia.
      * specialize (Hfresh eq_refl). lia.
    + right. split; [done|]. split; [done|]. by apply Exists_cons_tl.
  - injection Hrun as <- <-.
    destruct (perform_Terminated build c g t1 g1 Hcall)
      as [(-> & Hflag & Hflag' & Hcount)|(-> & -> & Herr)].
    + left. split; [done|]. split; [done|]. split; [lia|].
      intros Hclear. congruence.
    + right. split; [done|]. split; [done|]. by apply Exists_cons_hd.
Qed.

(** X11. Over any sequence of notifications and signals, whatever the
    build, the registry only loses handles, and every [stop()] that is
    called is called on a handle of the registry as it was at the start,
    in registry order and no more often than the handle was registered. *)
Theorem calls_stop_only_registered
    (build : Build) (calls : list Call) (g : Globals) :
  let g' := final (perform_all build calls g) in
  features g' `sublist_of` features g /\
  exists extra,
    stops (trace g') = stops (trace g) ++ extra /\
    extra `sublist_of` features g.
Proof.
  destruct (Later_perform_all build calls g)
    as [Hfeatures _ _ (extra & Hstops & Hextra & _)].
  split; [done|]. by exists extra.
Qed.

(** X12. Once [attemptingShutdown] is set, no sequence of notifications
    and signals clears it, and none calls [stop()] on any feature again. *)
Theorem shutting_down_is_permanent
    (build : Build) (calls : list Call) (g : Globals) :
  attemptingShutdown g = true ->
  attemptingShutdown (final (perform_all build calls g)) = true /\
  stops (trace (final (perform_all build calls g))) = stops (trace g).
Proof.
  intros Hflag.
  destruct (Later_perform_all build calls g)
    as [_ Hkept _ (extra & Hstops & _ & _ & Hnone & _)].
  split; [by apply Hkept|].
  by rewrite Hstops, (Hnone Hflag), app_nil_r.
Qed.

Lemma shutting_down_is_permanent_witness :
  attemptingShutdown (mkGlobals [4; 8] true []) = true /\
  attemptingShutdown
    (final (perform_all ReleaseBuild
              [EventCall 4 FEATURE_STOPPED; ErrorCall 8 SUBSCRIPTION_REJECTED "denied"]
              (mkGlobals [4; 8] true []))) = true /\
  stops (trace (final (perform_all ReleaseBuild
              [EventCall 4 FEATURE_STOPPED; ErrorCall 8 SUBSCRIPTION_REJECTED "denied"]
              (mkGlobals [4; 8] true [])))) = stops [].
Proof.
  split; [reflexivity|].
  apply (shutting_down_is_permanent ReleaseBuild
           [EventCall 4 FEATURE_STOPPED; ErrorCall 8 SUBSCRIPTION_REJECTED "denied"]
           (mkGlobals [4; 8] true [])).
  reflexivity.
Defined.

(** X13. A process whose flag is clear never exits on its first
    [shutdown()].  If a sequence of notifications and signals ends it by
    [exit], the status is 0, [shutdown()] has been entered at least twice,
    and [stop()] has been called on every feature that is still
    registered. *)
Theorem exit_only_after_stopping
    (build : Build) (calls : list Call) (g : Globals) (status : Z) :
  attemptingShutdown g = false ->
  termination (perform_all build calls g) = Some (Exit status) ->
  let g' := final (perform_all build calls g) in
  status = 0%Z /\
  shutdown_calls (trace g) + 2 <= shutdown_calls (trace g') /\
  exists extra,
    stops (trace g') = stops (trace g) ++ extra /\
    features g' `sublist_of` extra /\
    extra `sublist_of` features g.
Proof.
  intros Hclear Hexit. cbv zeta.
  pose proof (Later_perform_all build calls g) as Hlater.
  destruct (perform_all build calls g) as [[] g'|t g'] eqn:Hrun; [done|].
  cbn [termination final] in *. injection Hexit as ->.
  destruct (perform_all_Terminated build calls g _ g' Hrun)
    as [(Hstatus & Hflag' & _ & Hcount)|(Habort & _)]; [|done].
  injection Hstatus as ->.
  destruct Hlater as [_ _ _ (extra & Hstops & Hextra & _ & _ & Hfirst)].
  destruct (Hfirst Hclear Hflag') as [Hsub _].
  split; [done|]. split; [by apply Hcount|]. by exists extra.
Qed.

Lemma exit_only_after_stopping_witness :
  attemptingShutdown two_registered = false /\
  termination (perform_all ReleaseBuild interrupt_and_reports two_registered) =
    Some (Exit 0) /\
  let g' := final (perform_all ReleaseBuild interrupt_and_reports two_registered) in
  0%Z = 0%Z /\
  shutdown_calls (trace two_registered) + 2 <= shutdown_calls (trace g') /\
  exists extra,
    stops (trace g') = stops (trace two_registered) ++ extra /\
    features g' `sublist_of` extra /\
    extra `sublist_of` features two_registered.
Proof.
  split; [reflexivity|]. split; [reflexivity|].
  exact (exit_only_after_stopping ReleaseBuild interrupt_and_reports
           two_registered 0 eq_refl eq_refl).
Defined.

(** X14. The process aborts only in a debug build, and only on an error
    notification: no event, no signal and no [shutdown()] ever aborts, and
    a release build never does. *)
Theorem abort_only_from_debug_error
    (build : Build) (calls : list Call) (g : Globals) :
  termination (perform_all build calls g) = Some Abort ->
  build = DebugBuild /\ Exists (fun c => is_error_call c = true) calls.
Proof.
  intros Habort.
  destruct (perform_all build calls g) as [[] g'|t g'] eqn:Hrun; [done|].
  cbn [termination] in Habort. injection Habort as ->.
  destruct (perform_all_Terminated build calls g _ g' Hrun)
    as [(Hexit & _)|(_ & Hbuild & Herror)]; done.
Qed.

Lemma abort_only_from_debug_error_witness :
  termination
    (perform_all DebugBuild
       [EventCall 4 FEATURE_STARTED; ErrorCall 4 (OTHER_ERROR 7) "unknown"]
       two_registered) = Some Abort /\
  DebugBuild = DebugBuild /\
  Exists (fun c => is_error_call c = true)
    [EventCall 4 FEATURE_STARTED; ErrorCall 4 (OTHER_ERROR 7) "unknown"].
Proof.
  split; [reflexivity|].
  apply (abort_only_from_debug_error DebugBuild
           [EventCall 4 FEATURE_STARTED; ErrorCall 4 (OTHER_ERROR 7) "unknown"]
           two_registered).
  reflexivity.
Defined.

(** ** The test of [size] *)

(** X15. For a registry of at most [INT_MAX] handles, with or without
    duplicates, [handle_feature_stopped] leaves the registry as its erase
    loop made it and enters [shutdown()] exactly when that registry is
    empty. *)
Theorem shutdown_entered_iff_registry_emptied (feature : Feature) (g : Globals) :
  (Z.of_nat (length (features g)) <= INT_MAX)%Z ->
  let o := handle_feature_stopped feature g in
  features (final o) = erase_feature feature (features g) /\
  shutdown_calls (trace (final o)) =
    shutdown_calls (trace g) +
    match erase_feature feature (features g) with [] => 1 | _ :: _ => 0 end.
Proof.
  intros Hbound. cbv zeta. rewrite handle_feature_stopped_eq.
  split; [by rewrite stopped_unlocked_features|].
  rewrite stopped_unlocked_calls. cbn [trace zero_of].
  pose proof (erase_feature_sandwich feature (features g)) as [_ Hsub].
  apply sublist_length in Hsub.
  rewrite int_of_size_t_small by lia.
  destruct (erase_feature feature (features g)) as [|x rest];
    [change (0 =? Z.of_nat (length (@nil nat)))%Z with true; cbv iota; lia|].
  destruct (Z.eqb_spec 0 (Z.of_nat (length (x :: rest)))) as [Heq|Hne];
    [cbn [length] in Heq; lia | cbv iota; lia].
Qed.

Lemma shutdown_entered_iff_registry_emptied_witness :
  (Z.of_nat (length (features twice_registered)) <= INT_MAX)%Z /\
  let o := handle_feature_stopped 7 twice_registered in
  features (final o) = erase_feature 7 (features twice_registered) /\
  shutdown_calls (trace (final o)) =
    shutdown_calls (trace twice_registered) +
    match erase_feature 7 (features twice_registered) with
    | [] => 1
    | _ :: _ => 0
    end.
Proof.
  assert (Hbound : (Z.of_nat (length (features twice_registered)) <= INT_MAX)%Z)
    by (cbn; unfold INT_MAX; lia).
  exact (conj Hbound
           (shutdown_entered_iff_registry_emptied 7 twice_registered Hbound)).
Defined.

(** ** Features that stop by themselves *)

(** X16. When all features report [FEATURE_STOPPED] and no interrupt has
    come, the last report runs the first [shutdown()]: the flag is set,
    the logger is shut down, no [stop()] is called, and the process does
    not end.  It ends, with status 0, on the next [SIGINT] or on any
    further [FEATURE_STOPPED] report, whatever handle it names. *)
Theorem all_stopped_without_interrupt
    (g : Globals) (order : list Feature) (feature : Feature) :
  attemptingShutdown g = false ->
  NoDup (features g) -> features g <> [] ->
  (Z.of_nat (length (features g)) <= INT_MAX)%Z ->
  order ≡ₚ features g ->
  let o := deliver_stopped order g in
  termination o = None /\
  features (final o) = [] /\
  attemptingShutdown (final o) = true /\
  stops (trace (final o)) = stops (trace g) /\
  (exists before, trace (final o) = before ++ [EnterShutdown; LoggerShutdown]) /\
  termination (on_signal SIGINT (final o)) = Some (Exit 0) /\
  termination (onEvent feature FEATURE_STOPPED (final o)) = Some (Exit 0).
Proof.
  intros Hclear Hnd Hne Hbound Hperm. cbv zeta.
  rewrite deliver_stopped_all by done. rewrite shutdown_first by done.
  cbn [final termination features attemptingShutdown trace stop_effects flat_map app].
  split; [done|]. split; [done|]. split; [done|]. split; [|split; [|split]].
  - stops_simpl. by rewrite stops_stopped_log, !app_nil_r.
  - eexists. by rewrite !app_assoc.
  - rewrite on_signal_SIGINT. by rewrite shutdown_termination.
  - rewrite onEvent_stopped, handle_feature_stopped_eq.
    cbn [with_trace features attemptingShutdown trace].
    change (erase_feature feature []) with (@nil nat).
    cbn [length Z.of_nat]. change (int_of_size_t 0) with 0%Z.
    rewrite stopped_unlocked_zero. by rewrite shutdown_termination.
Qed.

Lemma all_stopped_without_interrupt_witness :
  attemptingShutdown two_registered = false /\
  NoDup (features two_registered) /\ features two_registered <> [] /\
  (Z.of_nat (length (features two_registered)) <= INT_MAX)%Z /\
  [8; 4] ≡ₚ features two_registered /\
  let o := deliver_stopped [8; 4] two_registered in
  termination o = None /\
  features (final o) = [] /\
  attemptingShutdown (final o) = true /\
  stops (trace (final o)) = stops (trace two_registered) /\
  (exists before, trace (final o) = before ++ [EnterShutdown; LoggerShutdown]) /\
  termination (on_signal SIGINT (final o)) = Some (Exit 0) /\
  termination (onEvent 4 FEATURE_STOPPED (final o)) = Some (Exit 0).
Proof.
  assert (Hnd : NoDup (features two_registered)).
  { cbn. apply NoDup_cons. split; [|apply NoDup_singleton].
    intros Hin. apply list_elem_of_singleton in Hin. discriminate. }
  assert (Hne : features two_registered <> []) by discriminate.
  assert (Hbound : (Z.of_nat (length (features two_registered)) <= INT_MAX)%Z)
    by (cbn; unfold INT_MAX; lia).
  assert (Hperm : [8; 4] ≡ₚ features two_registered) by apply perm_swap.
  split; [reflexivity|]. repeat (split; [assumption|]).
  exact (all_stopped_without_interrupt two_registered [8; 4] 4
           eq_refl Hnd Hne Hbound Hperm).
Defined.

End MainProperties.

(** * Properties of the resolver *)

Module ConfigProperties.
Import Config.

(** ** Layers *)




Lemma loads_resolve j args env :
  LoadFromEnvironment env (LoadFromCliArgs args (LoadFromJson j builtin_defaults)) =
  resolve builtin_defaults (json_layer j) (cli_layer args) (env_layer env).
Proof. reflexivity. Qed.

(** ** Log levels *)

Lemma lower_ascii_idem c : lower_ascii (lower_ascii c) = lower_ascii c.
Proof.
  destruct c as [[] [] [] [] [] [] [] []]; reflexivity.
Qed.

Lemma lowercase_idem s : lowercase (lowercase s) = lowercase s.
Proof.
  induction s as [|c s IH]; [done|]. cbn. by rewrite lower_ascii_idem, IH.
Qed.

(** Parsing does not depend on the case of the letters. *)
Lemma ParseLogLevel_lowercase s : ParseLogLevel (lowercase s) = ParseLogLevel s.
Proof. unfold ParseLogLevel. by rewrite lowercase_idem. Qed.

Example ParseLogLevel_vocabulary :
  ParseLogLevel "error" = Some 0%Z /\ ParseLogLevel "WARN" = Some 1%Z /\
  ParseLogLevel "Info" = Some 2%Z /\ ParseLogLevel "DEBUG" = Some 3%Z /\
  ParseLogLevel "verbose" = None.
Proof. repeat split. Qed.

(** ** The tests of [TestConfig.cpp] *)

Section Tests.
Variable port_of_service : string -> option Z.
Variable tunneling_valid : Tunneling -> bool.
Hypothesis SSH_port : port_of_service "SSH" = Some 22%Z.
Hypothesis default_valid : tunneling_valid tested_default = true.
Hypothesis cli_valid : tunneling_valid tested_cli = true.

Example AllFeaturesEnabled :
  let config := resolved port_of_service (from_file all_features_json) in
  Validate port_of_service tunneling_valid FullClient (from_file all_features_json) = true /\
  config Endpoint = Some "endpoint value" /\
  config Cert = Some "cert" /\
  config Key = Some "key" /\
  config RootCa = Some "root-ca" /\
  config ThingName = Some "thing-name value" /\
  config LogType = Some "file" /\
  config LogFile = Some "./aws-iot-device-client.log" /\
  config LogLevel = Some 3%Z /\
  config JobsEnabled = Some true /\
  config TunnelingEnabled = Some true /\
  config DefenderEnabled = Some true /\
  config DefenderInterval = Some 300%Z.
Proof. split; [exact default_valid | repeat split]. Qed.

Example HappyCaseMinimumConfig :
  let config := resolved port_of_service (from_file minimum_json) in
  Validate port_of_service tunneling_valid FullClient (from_file minimum_json) = true /\
  config Endpoint = Some "endpoint value" /\
  config ThingName = Some "thing-name value" /\
  config JobsEnabled = Some true /\
  config TunnelingEnabled = Some true /\
  config DefenderEnabled = Some true /\
  config ProvisioningEnabled = Some false.
Proof. split; [exact default_valid | repeat split]. Qed.

Example HappyCaseMinimumCli :
  let i := mkInputs None minimum_cli no_env in
  let config := resolved port_of_service i in
  Validate port_of_service tunneling_valid FullClient i = true /\
  config Endpoint = Some "endpoint value" /\
  config Cert = Some "cert" /\
  config Key = Some "key" /\
  config RootCa = Some "root-ca" /\
  config ThingName = Some "thing-name value" /\
  config JobsEnabled = Some true /\
  config TunnelingEnabled = Some true /\
  config DefenderEnabled = Some true /\
  config ProvisioningEnabled = Some false.
Proof. split; [exact default_valid | repeat split]. Qed.

Example MissingSomeSettings :
  Validate port_of_service tunneling_valid FullClient
           (from_file missing_endpoint_json) = false /\
  Validate port_of_service tunneling_valid TunnelingOnly
           (from_file missing_endpoint_json) = true.
Proof. split; [reflexivity | exact default_valid]. Qed.

Example SecureTunnelingMinimumConfig :
  let config := resolved port_of_service (from_file tunneling_json) in
  Validate port_of_service tunneling_valid FullClient (from_file tunneling_json) = true /\
  config TunnelingEnabled = Some true /\
  config TunnelingSubscribe = Some true.
Proof. split; [exact default_valid | repeat split]. Qed.

Lemma secure_tunneling_cli_tunneling :
  tunneling_of (resolved port_of_service secure_tunneling_cli) = tested_cli /\
  tunneling_of (resolved port_of_service secure_tunneling_disable_subscription) =
    tested_cli.
Proof.
  split.
  - change (mkTunneling true (Some "region value")
              (Some "destination_access_token_value")
              (port_of_service "SSH") (Some "SSH") false = tested_cli).
    by rewrite SSH_port.
  - change (mkTunneling true (Some "region value")
              (Some "destination_access_token_value")
              (port_of_service "SSH") (Some "SSH") false = tested_cli).
    by rewrite SSH_port.
Qed.

Example SecureTunnelingCli :
  let config := resolved port_of_service secure_tunneling_cli in
  Validate port_of_service tunneling_valid FullClient secure_tunneling_cli = true /\
  config TunnelingEnabled = Some true /\
  config TunnelingToken = Some "destination_access_token_value" /\
  config TunnelingRegion = Some "region value" /\
  config TunnelingPort = Some 22%Z /\
  config TunnelingSubscribe = Some false.
Proof.
  cbv zeta. split; [|repeat split; exact SSH_port].
  unfold Validate. destruct secure_tunneling_cli_tunneling as [-> _].
  by rewrite cli_valid.
Qed.

Example SecureTunnelingDisableSubscription :
  let config := resolved port_of_service secure_tunneling_disable_subscription in
  Validate port_of_service tunneling_valid FullClient
           secure_tunneling_disable_subscription = true /\
  config TunnelingEnabled = Some true /\
  config TunnelingSubscribe = Some false /\
  config TunnelingToken = Some "destination_access_token_value" /\
  config TunnelingRegion = Some "region value" /\
  config TunnelingPort = Some 22%Z.
Proof.
  cbv zeta. split; [|repeat split; exact SSH_port].
  unfold Validate. destruct secure_tunneling_cli_tunneling as [_ ->].
  by rewrite cli_valid.
Qed.

Example LoggingConfigurationCLI :
  let config := LoadFromCliArgs logging_cli (LoadFromJson logging_json builtin_defaults) in
  config LogLevel = Some 1%Z /\
  config LogType = Some "file" /\
  config LogFile = Some "./client.log".
Proof. repeat split. Qed.

End Tests.

(** ** Precedence *)




(** Without the variable the token of the lower layers stays. *)
Example token_without_environment :
  resolve builtin_defaults token_in_file (cli_layer tunneling_cli)
          (env_layer no_env) TunnelingToken = Some "token from the file".
Proof. reflexivity. Qed.

(** ** Validation *)

Section Validation.
Variable port_of_service : string -> option Z.
Variable tunneling_valid : Tunneling -> bool.

(** Only the port field is touched by the derivation of the port. *)
Lemma with_resolved_port_other config f :
  f <> TunnelingPort ->
  with_resolved_port port_of_service config f = config f.
Proof. intros Hf. by destruct f. Qed.

Lemma resolved_port_field i :
  resolved port_of_service i TunnelingPort =
  resolved_port port_of_service (loaded i).
Proof. reflexivity. Qed.

(** What the loaders leave in the port and service fields. *)
Lemma loaded_port i : loaded i TunnelingPort = explicit_port i.
Proof.
  destruct i as [[j|] args env]; [|reflexivity].
  unfold loaded, LoadFromEnvironment, LoadFromCliArgs, LoadFromJson, merge,
         explicit_port.
  cbn. by destruct (nested "tunneling" (get_int "port") j).
Qed.

Lemma loaded_service i : loaded i TunnelingService = service_name i.
Proof.
  unfold loaded, LoadFromEnvironment, LoadFromCliArgs, LoadFromJson, merge,
         service_name.
  destruct i as [[j|] args env]; cbn;
    destruct (args CLI_TUNNELING_SERVICE); try done.
  by destruct (nested "tunneling" (get_string "service") j).
Qed.

Lemma resolved_port_inputs i :
  resolved port_of_service i TunnelingPort =
  match explicit_port i with
  | Some number => Some number
  | None =>
      match service_name i with
      | Some name => port_of_service name
      | None => None
      end
  end.
Proof.
  rewrite resolved_port_field. unfold resolved_port.
  by rewrite loaded_port, loaded_service.
Qed.







(** C8, amended.  An input with a service name and no explicit port
    resolves to the port the static table gives for the service; an
    explicit port is the resolved port whatever the service; with neither
    a port nor a service no port is resolved. *)
Theorem tunneling_port_resolution (i : Inputs) :
  (forall name,
     explicit_port i = None -> service_name i = Some name ->
     resolved port_of_service i TunnelingPort = port_of_service name) /\
  (forall number,
     explicit_port i = Some number ->
     resolved port_of_service i TunnelingPort = Some number) /\
  (explicit_port i = None -> service_name i = None ->
   resolved port_of_service i TunnelingPort = None).
Proof.
  rewrite resolved_port_inputs. repeat split.
  - by intros name -> ->.
  - by intros number ->.
  - by intros -> ->.
Qed.

End Validation.



(** Nor does no input at all. *)
Example no_input_fails :
  identity_supplied (resolved ssh_only no_input) = false /\
  Validate ssh_only accept_all TunnelingOnly no_input = false.
Proof. split; reflexivity. Qed.

(** A level on the command line that is not in the vocabulary fails
    validation; the level of the file does not stand in for it. *)
Example unrecognised_cli_level_fails :
  Validate ssh_only accept_all FullClient
           (mkInputs (Some logging_json)
                     (cli_set CLI_LOG_LEVEL "verbose" no_args) no_env) = false.
Proof. reflexivity. Qed.

(** The input of [SecureTunnelingMinimumConfig] enables tunneling and
    resolves no port, and the test asserts that it validates: no rule for
    the tunneling fields satisfies both the test and the last part of
    C8. *)
Lemma tunneling_without_port_validates :
  ~ exists port_of_service tunneling_valid,
      Validate port_of_service tunneling_valid FullClient
               (from_file tunneling_json) = true /\
      port_or_failure port_of_service tunneling_valid FullClient
                      (from_file tunneling_json).
Proof.
  intros (port_of_service & tunneling_valid & Htest & Hclaim).
  rewrite (Hclaim eq_refl eq_refl) in Htest. discriminate Htest.
Qed.

Lemma tunneling_port_resolution_witness :
  resolved ssh_only secure_tunneling_cli TunnelingPort = Some 22%Z /\
  resolved ssh_only (mkInputs (Some tunneling_port_json) tunneling_cli tunneling_env)
           TunnelingPort = Some 2222%Z /\
  resolved ssh_only (from_file tunneling_json) TunnelingPort = None.
Proof.
  split; [|split].
  - destruct (tunneling_port_resolution ssh_only secure_tunneling_cli)
      as (Hderived & _).
    exact (Hderived "SSH" eq_refl eq_refl).
  - destruct (tunneling_port_resolution ssh_only
                (mkInputs (Some tunneling_port_json) tunneling_cli tunneling_env))
      as (_ & Hexplicit & _).
    exact (Hexplicit 2222%Z eq_refl).
  - destruct (tunneling_port_resolution ssh_only (from_file tunneling_json))
      as (_ & _ & Hneither).
    exact (Hneither eq_refl eq_refl).
Defined.

(** The service may also come from the file. *)
Example service_from_file :
  resolved ssh_only (from_file tunneling_service_json) TunnelingPort = Some 22%Z.
Proof. reflexivity. Qed.

End ConfigProperties.
